(** * flagfx: the constructor-splitting barrier between [flag] and [fx]

    A shallow embedding of the package [flagfx] (the self-contained
    version, in which [parse], [Provide], [entry], [parsed], [params] and
    [result] live in one file) together with the properties its
    specification states about it.

    Go's [reflect] and [flag] packages and the [fx] container are not part
    of the package.  What the package needs from [reflect.Value.Call] and
    from [*flag.FlagSet] is collected in the class [Runtime]; the part of
    [fx] that the package relies on (one resolution pass: capture stage,
    barrier, release stage) is the function [resolve] below. *)

From stdpp Require Import gmap strings list pretty.

Set Default Proof Using "Type".
Set Warnings "-register-all".

(** ** Types and values as [reflect] shows them *)

Inductive Kind := Invalid | Bool | Int | String | Struct | Ptr | Slice | Func.

#[global] Instance Kind_eq_dec : EqDecision Kind.
Proof. solve_decision. Defined.

Inductive rtype :=
| TBool
| TInt
| TString
| TStruct (name : string)
| TPtr (elem : rtype)
| TSlice (elem : rtype)
| TFunc (ins outs : list rtype) (variadic : bool).

Definition kind_of_type (t : rtype) : Kind :=
  match t with
  | TBool => Bool
  | TInt => Int
  | TString => String
  | TStruct _ => Struct
  | TPtr _ => Ptr
  | TSlice _ => Slice
  | TFunc _ _ _ => Func
  end.

(** [reflect.FuncOf(in, out, variadic)]. *)
Definition FuncOf (ins outs : list rtype) (variadic : bool) : rtype :=
  TFunc ins outs variadic.

(** [Type.NumIn], [Type.In], [Type.NumOut], [Type.Out], [Type.IsVariadic];
    the package calls them on function types only. *)
Definition NumIn (t : rtype) : nat :=
  match t with TFunc i _ _ => length i | _ => 0 end.
Definition In (t : rtype) (i : nat) : rtype :=
  match t with TFunc l _ _ => nth i l TBool | _ => TBool end.
Definition NumOut (t : rtype) : nat :=
  match t with TFunc _ o _ => length o | _ => 0 end.
Definition Out (t : rtype) (i : nat) : rtype :=
  match t with TFunc _ l _ => nth i l TBool | _ => TBool end.
Definition IsVariadic (t : rtype) : bool :=
  match t with TFunc _ _ v => v | _ => false end.

(** Pointers to [entry] values: the identity of an entry. *)
Definition ptr := nat.

(** The two closures that [Provide] hands to [reflect.MakeFunc]; each
    closes over the entry [e] it shares with its sibling. *)
Inductive closure :=
| Capture (e : ptr)
| Release (e : ptr).

(** A Go value as it sits in an [any] or a [reflect.Value]. *)
Inductive value :=
| VNil
| VBool (b : bool)
| VInt (z : Z)
| VString (s : string)
| VObj (t : rtype) (addr : nat)
| VFunc (ins outs : list rtype) (variadic : bool) (code : nat)
| VMade (t : rtype) (c : closure)
| VResult (Entry : ptr)
| VParsed (p : option parsed)
(** [type parsed struct { entries map[*entry][]reflect.Value }]; a
    [*parsed] is [None] when nil. *)
with parsed :=
| mkParsed (entries : gmap ptr (list value)).

Definition entries (p : parsed) : gmap ptr (list value) :=
  match p with mkParsed m => m end.

(** [var ( parsedPtrType ... resultTypes )]. *)
Definition parsedPtrType : rtype := TPtr (TStruct "flagfx.parsed").
Definition parsedPtrTypes : list rtype := [parsedPtrType].
Definition resultType : rtype := TStruct "flagfx.result".
Definition resultTypes : list rtype := [resultType].

(** [reflect.ValueOf(x).Type()]; the zero Value has none. *)
Definition Type_of (v : value) : option rtype :=
  match v with
  | VNil => None
  | VBool _ => Some TBool
  | VInt _ => Some TInt
  | VString _ => Some TString
  | VObj t _ => Some t
  | VFunc i o va _ => Some (TFunc i o va)
  | VMade t _ => Some t
  | VResult _ => Some resultType
  | VParsed _ => Some parsedPtrType
  end.

(** [reflect.ValueOf(x).Kind()]: [Invalid] for the nil interface. *)
Definition Kind_of (v : value) : Kind :=
  match Type_of v with
  | Some t => kind_of_type t
  | None => Invalid
  end.

(** ** Outcomes: a Go call returns or panics *)

Inductive outcome (A : Type) :=
| Returned (a : A)
| Panicked (msg : string).
Arguments Returned {A} a.
Arguments Panicked {A} msg.

Definition is_returned {A} (r : outcome A) : bool :=
  match r with Returned _ => true | Panicked _ => false end.

(** The value a call returned, [d] when it panicked. *)
Definition result_or {A S} (d : A) (r : outcome A * S) : A :=
  match r.1 with Returned a => a | Panicked _ => d end.

Definition error := string.

(** [type Arguments []string]. *)
Definition Arguments := list string.

(** A [*flag.FlagSet]. *)
Definition fsref := nat.

(** ** What the package uses from [reflect] and [flag]

    [World] is everything a constructor body and the flag package can
    read or write: flag sets, the structs that hold flag values, and so
    on.  [Call fn args] is [fn.Call(args)] for a function written by the
    user, with the panics [reflect] raises on ill-typed arguments.
    [fs_Parse] is a call of [fs.Parse] that comes back, with [nil] or
    with an error; a flag set made with [ExitOnError] or [PanicOnError]
    leaves the process or panics inside [Parse] instead of handing back
    an error, and nothing stated below about a returned error speaks of
    those. *)
Class Runtime := {
  World : Type;
  fs_Parsed : fsref -> World -> bool;
  fs_Parse : fsref -> Arguments -> World -> option error * World;
  Call : value -> list value -> World -> outcome (list value) * World;
  (** [Call] returns one value per declared output. *)
  Call_NumOut : forall fn ft given w outs w',
    Type_of fn = Some ft ->
    Call fn given w = (Returned outs, w') ->
    length outs = NumOut ft;
}.

(** ** Package state *)

(** [type entry struct { fn reflect.Value; args []reflect.Value }]. *)
Record entry := mkEntry {
  fn : value;
  args : list value;
}.

(** [type params struct { fx.In; Entries []*entry `group:...` }]. *)
Record params := mkParams {
  Entries : list ptr;
}.

(** [type result struct { fx.Out; Entry *entry `group:...` }] is the
    value [VResult]. *)

(** The options of [fx] that the package builds. *)
Inductive fx_option :=
| FxError (err : error)
| FxProvide (constructors : list value)
| FxOptions (opts : list fx_option).

(** What an observer of one run sees happen, in order. *)
Inductive event :=
| EvCapture (e : ptr) (received : list value)
| EvConstructor (e : ptr) (given : list value)
| EvAction (fs : fsref) (payload : Arguments)
| EvRelease (e : ptr).

Section WithRuntime.
Context `{RT : Runtime}.

Record state := mkState {
  heap : gmap ptr entry;
  world : World;
  trace : list event;
}.

(** Computations over the package state that may panic. *)
Definition M (A : Type) : Type := state -> outcome A * state.

Definition ret {A} (a : A) : M A := fun st => (Returned a, st).

Definition bind {A B} (m : M A) (k : A -> M B) : M B :=
  fun st =>
    match m st with
    | (Returned a, st') => k a st'
    | (Panicked msg, st') => (Panicked msg, st')
    end.

Definition panic {A} (msg : string) : M A := fun st => (Panicked msg, st).

Definition log (ev : event) : M unit :=
  fun st => (Returned tt,
             {| heap := heap st; world := world st; trace := trace st ++ [ev] |}).

(** Run an operation of the runtime on the world. *)
Definition on_world {A} (f : World -> A * World) : M A :=
  fun st =>
    let '(a, w) := f (world st) in
    (Returned a, {| heap := heap st; world := w; trace := trace st |}).

(** The same, for an operation that may panic. *)
Definition on_world_may_panic {A} (f : World -> outcome A * World) : M A :=
  fun st =>
    let '(r, w) := f (world st) in
    (r, {| heap := heap st; world := w; trace := trace st |}).

(** [*e]: a nil or dangling pointer is a run-time panic. *)
Definition deref (e : ptr) : M entry :=
  fun st =>
    match heap st !! e with
    | Some en => (Returned en, st)
    | None => (Panicked "invalid memory address or nil pointer dereference", st)
    end.

Notation "'let*' x ':=' m 'in' k" := (bind m (fun x => k))
  (at level 10, x name, m at level 100, k at level 200, only parsing).
Notation "'let*' ' pat ':=' m 'in' k" :=
  (bind m (fun x => match x with pat => k end))
  (at level 10, pat pattern, m at level 100, k at level 200, only parsing).

(** ** The barrier: [parse] *)

(** [e.fn.Call(e.args)]. *)
Definition call_constructor (e : ptr) : M (list value) :=
  let* en := deref e in
  let* _ := log (EvConstructor e (args en)) in
  on_world_may_panic (Call (fn en) (args en)).

(** [for _, e := range p.Entries { parsed.entries[e] = e.fn.Call(e.args) }]. *)
Fixpoint parse_loop (es : list ptr) (res : parsed) : M parsed :=
  match es with
  | [] => ret res
  | e :: es' =>
      let* outs := call_constructor e in
      parse_loop es' (mkParsed (<[e := outs]> (entries res)))
  end.

(** [func parse(fs, args, p)], which returns a [*parsed] and an [error];
    the pair is Go's pair of results, [None] for [nil]. *)
Definition parse (fs : fsref) (args : Arguments) (p : params)
  : M (option parsed * option error) :=
  let* res := parse_loop (Entries p) (mkParsed ∅) in
  let* done := on_world (fun w => (fs_Parsed fs w, w)) in
  let* err :=
    (if negb done then
       let* _ := log (EvAction fs args) in
       on_world (fs_Parse fs args)
     else ret None) in
  match err with
  | Some err => ret (None, Some err)
  | None => ret (Some res, None)
  end.

(** ** The two synthesized providers *)

(** [e.args = args]. *)
Definition set_args (e : ptr) (received : list value) : M unit :=
  fun st =>
    match heap st !! e with
    | Some en =>
        (Returned tt,
         {| heap := <[e := {| fn := fn en; args := received |}]> (heap st);
            world := world st;
            trace := trace st ++ [EvCapture e received] |})
    | None => (Panicked "invalid memory address or nil pointer dereference", st)
    end.

(** The closure given to [reflect.MakeFunc] for [fn1]. *)
Definition fn1 (e : ptr) (args : list value) : M (list value) :=
  let* _ := set_args e args in
  let r := VResult e in
  ret [r].

(** [typeAssert] at type [*parsed]: the value and whether it had that type. *)
Definition typeAssert (v : value) : M (option parsed * bool) :=
  match v with
  | VNil => panic "reflect: call of reflect.Value.Interface on zero Value"
  | VParsed p => ret (p, true)
  | _ => ret (None, false)
  end.

(** The closure given to [reflect.MakeFunc] for [fn2].  The lookup
    [parsed.entries[e]] of a missing key gives the nil slice. *)
Definition fn2 (e : ptr) (args : list value) : M (list value) :=
  if negb (length args =? 1) then panic "flagfx: unexpected number of arguments"
  else
    let* '(res, ok) := typeAssert (nth 0 args VNil) in
    if negb ok then panic "flagfx: unexpected argument type"
    else
      match res with
      | None => panic "invalid memory address or nil pointer dereference"
      | Some res =>
          let* _ := log (EvRelease e) in
          ret (default [] (entries res !! e))
      end.

(** [reflect.MakeFunc(typ, closure)]. *)
Definition MakeFunc (typ : rtype) (c : closure) : value := VMade typ c.

(** Calling a function made by [reflect.MakeFunc]: the closure runs, and
    [reflect] panics when it hands back the wrong number of results. *)
Definition call_made (f : value) (args : list value) : M (list value) :=
  match f with
  | VMade typ c =>
      let* out := (match c with
                   | Capture e => fn1 e args
                   | Release e => fn2 e args
                   end) in
      if length out =? NumOut typ then ret out
      else panic "reflect: wrong return count from function created by MakeFunc"
  | _ => panic "not a function made by MakeFunc"
  end.

(** ** Registration: [Provide] *)

(** [&entry{...}]: a pointer that no live entry has. *)
Definition new_entry (en : entry) : M ptr :=
  fun st =>
    let e := fresh (dom (heap st)) in
    (Returned e,
     {| heap := <[e := en]> (heap st); world := world st; trace := trace st |}).

(** The loop of [Provide] over [constructors], with [opts] built so far.
    A [value] is what [reflect.ValueOf] gives for the [any] it is passed
    ([VNil], of kind [Invalid], for the nil interface), so [fn] is the
    constructor itself; [break] ends the loop with the options so far. *)
Fixpoint Provide_loop (constructors : list value) (opts : list fx_option)
  : M (list fx_option) :=
  match constructors with
  | [] => ret opts
  | constructor :: rest =>
      let fn := constructor in
      if decide (Kind_of fn ≠ Func) then
        ret (opts ++ [FxError "flagfx: Provide must be used with functions"])
      else
        match Type_of fn with
        | None => panic "reflect: call of reflect.Value.Type on zero Value"
        | Some ft =>
            let in_ := map (In ft) (seq 0 (NumIn ft)) in
            let out := map (Out ft) (seq 0 (NumOut ft)) in
            let* e := new_entry {| fn := fn; args := [] |} in
            let fn1 := MakeFunc (FuncOf in_ resultTypes false) (Capture e) in
            let fn2 := MakeFunc (FuncOf parsedPtrTypes out false) (Release e) in
            Provide_loop rest (opts ++ [FxProvide [fn1; fn2]])
        end
  end.

(** [func Provide(constructors ...any) fx.Option]. *)
Definition Provide (constructors : list value) : M fx_option :=
  let* opts := Provide_loop constructors [] in
  ret (FxOptions opts).

(** ** The host container

    What the package relies on from [fx], as the comment in [Provide]
    gives it: [fx.New() -> fn1 -> parse() -> fn2 -> final components].
    An application that carries an [fx.Error] option runs nothing.
    Otherwise one resolution pass calls every capture-stage provider once
    with arguments built from its input types, hands the value group to
    [parse] in an order of the container's choosing, and, when [parse]
    gave a [*parsed], calls the release-stage providers that are in
    demand with it.

    [fx] calls a provider only when its result is in demand, and only a
    release-stage provider asks for the [*parsed] of [parse]: [resolve] is
    the pass [fx] makes once a release-stage output is in demand.  With
    nothing in demand [fx] calls neither [parse] nor any provider. *)

Record host := mkHost {
  supply : rtype -> value;
  shuffle : list ptr -> list ptr;
  demand : list value -> list value;
}.

Fixpoint option_errors (o : fx_option) : list error :=
  match o with
  | FxError err => [err]
  | FxProvide _ => []
  | FxOptions opts => flat_map option_errors opts
  end.

Fixpoint option_provides (o : fx_option) : list value :=
  match o with
  | FxError _ => []
  | FxProvide cs => cs
  | FxOptions opts => flat_map option_provides opts
  end.

Definition is_capture (f : value) : bool :=
  match f with VMade _ (Capture _) => true | _ => false end.

Definition is_release (f : value) : bool :=
  match f with VMade _ (Release _) => true | _ => false end.

Fixpoint mapM {A B} (f : A -> M B) (l : list A) : M (list B) :=
  match l with
  | [] => ret []
  | a :: l' =>
      let* b := f a in
      let* bs := mapM f l' in
      ret (b :: bs)
  end.

(** The arguments the container builds for a provider of type [typ]. *)
Definition build_args (h : host) (typ : rtype) : list value :=
  map (fun i => supply h (In typ i)) (seq 0 (NumIn typ)).

Definition call_capture (h : host) (f : value) : M (list value) :=
  call_made f (build_args h (default TBool (Type_of f))).

(** The members of the group [flagfx_entries] among provider results. *)
Definition group_entries (results : list (list value)) : list ptr :=
  flat_map (fun vs => flat_map (fun v => match v with
                                         | VResult e => [e]
                                         | _ => []
                                         end) vs) results.

Definition resolve (h : host) (fs : fsref) (argv : Arguments)
    (provided : list value) : M (error + list (list value)) :=
  let* results := mapM (call_capture h) (List.filter is_capture provided) in
  let p := {| Entries := shuffle h (group_entries results) |} in
  let* '(res, err) := parse fs argv p in
  match err with
  | Some err => ret (inl err)
  | None =>
      let* outs := mapM (fun f => call_made f [VParsed res])
                        (demand h (List.filter is_release provided)) in
      ret (inr outs)
  end.

(** [fx.New(opts...)] followed by the resolution its invokes trigger. *)
Definition fx_New (h : host) (fs : fsref) (argv : Arguments)
    (opts : list fx_option) : M (error + list (list value)) :=
  match flat_map option_errors opts with
  | err :: _ => ret (inl err)
  | [] => resolve h fs argv (flat_map option_provides opts)
  end.

(** Register [constructors] with [Provide], then start the application. *)
Definition register_and_run (h : host) (fs : fsref) (argv : Arguments)
    (constructors : list value) : M (error + list (list value)) :=
  let* opt := Provide constructors in
  fx_New h fs argv [opt].

(** ** Notions the properties are stated with *)

(** How often the trace [tr] shows the constructor of entry [e] run. *)
Definition runs_constructor (e : ptr) (ev : event) : bool :=
  match ev with EvConstructor e' _ => bool_decide (e' = e) | _ => false end.
Definition constructor_runs (e : ptr) (tr : list event) : nat :=
  length (List.filter (runs_constructor e) tr).

Definition is_constructor_event (ev : event) : bool :=
  match ev with EvConstructor _ _ => true | _ => false end.
Definition is_action (ev : event) : bool :=
  match ev with EvAction _ _ => true | _ => false end.
Definition is_release_event (ev : event) : bool :=
  match ev with EvRelease _ => true | _ => false end.

Definition action_runs (tr : list event) : nat :=
  length (List.filter is_action tr).

(** The events a computation adds to the trace when started in [st]. *)
Definition new_events {A} (m : M A) (st : state) : list event :=
  drop (length (trace st)) (trace (m st).2).

(** [m] only appends to the trace, and at most [n] of the events it adds
    satisfy [f]. *)
Definition bounded {A} (f : event -> bool) (n : nat) (m : M A) : Prop :=
  forall st, exists evs,
    trace (m st).2 = trace st ++ evs /\ length (List.filter f evs) <= n.

(** [m] leaves the world as it is. *)
Definition keeps_world {A} (m : M A) : Prop :=
  forall st, world (m st).2 = world st.

(** The host hands over the whole group, each member once, and calls
    release-stage providers only. *)
Definition host_ok (h : host) : Prop :=
  (forall l, shuffle h l ≡ₚ l) /\ (forall l, demand h l ⊆ l).

(** The arguments the host captures for constructor [c]. *)
Definition captured_args (h : host) (c : value) : list value :=
  match Type_of c with
  | Some ft => build_args h ft
  | None => []
  end.

(** Calling the constructors of [ens] one after the other, as the loop of
    [parse] does, without the bookkeeping. *)
Fixpoint run_entries (ens : list entry) (w : World)
  : outcome (list (list value)) * World :=
  match ens with
  | [] => (Returned [], w)
  | en :: ens' =>
      match Call (fn en) (args en) w with
      | (Returned outs, w1) =>
          match run_entries ens' w1 with
          | (Returned rest, w2) => (Returned (outs :: rest), w2)
          | (Panicked msg, w2) => (Panicked msg, w2)
          end
      | (Panicked msg, w1) => (Panicked msg, w1)
      end
  end.

(** The event and the map update of one turn of the loop of [parse]. *)
Definition constructor_event (e : ptr) (en : entry) : event :=
  EvConstructor e (args en).

Definition store_outputs (m : gmap ptr (list value)) (es : list ptr)
    (outs : list (list value)) : gmap ptr (list value) :=
  foldl (fun m eo => <[eo.1 := eo.2]> m) m (zip es outs).

(** Two constructors commute when calling them in either order gives
    each the same results and leaves the same world; the constructors of
    a list are independent when any two different ones commute. *)
Definition commute (a b : entry) : Prop :=
  forall w,
    let '(ra, wa) := Call (fn a) (args a) w in
    let '(rb, wab) := Call (fn b) (args b) wa in
    let '(rb', wb) := Call (fn b) (args b) w in
    let '(ra', wba) := Call (fn a) (args a) wb in
    ra = ra' /\ rb = rb' /\ wab = wba.

Definition independent (ens : list entry) : Prop :=
  forall a b, a ∈ ens -> b ∈ ens -> a = b \/ commute a b.

(** Identity of function signatures on the input side: the same parameter
    types, and both variadic or neither. *)
Definition same_input_signature (t1 t2 : rtype) : Prop :=
  NumIn t1 = NumIn t2 /\
  (forall i, i < NumIn t1 -> In t1 i = In t2 i) /\
  IsVariadic t1 = IsVariadic t2.

(** The pointers [Provide] allocates for [cs], and the heap afterwards. *)
Fixpoint alloc_all (cs : list value) (h : gmap ptr entry)
  : list ptr * gmap ptr entry :=
  match cs with
  | [] => ([], h)
  | c :: cs' =>
      let e := fresh (dom h) in
      let '(es, h') := alloc_all cs' (<[e := {| fn := c; args := [] |}]> h) in
      (e :: es, h')
  end.

(** The entry at [e] in heap [h], for a pointer known to be live. *)
Definition entry_at (h : gmap ptr entry) (e : ptr) : entry :=
  default {| fn := VNil; args := [] |} (h !! e).

(** The entry of constructor [c] after the capture stage. *)
Definition captured (h : host) (c : value) : entry :=
  {| fn := c; args := captured_args h c |}.

(** The pair of providers [Provide] builds for constructor [c] and entry [e]. *)
Definition capture_provider (c : value) (e : ptr) : value :=
  match Type_of c with
  | Some ft =>
      MakeFunc (FuncOf (map (In ft) (seq 0 (NumIn ft))) resultTypes false)
               (Capture e)
  | None => VNil
  end.

Definition release_provider (c : value) (e : ptr) : value :=
  match Type_of c with
  | Some ft =>
      MakeFunc (FuncOf parsedPtrTypes (map (Out ft) (seq 0 (NumOut ft))) false)
               (Release e)
  | None => VNil
  end.

Definition provide_pair (c : value) (e : ptr) : fx_option :=
  FxProvide [capture_provider c e; release_provider c e].

Definition capture_event (h : host) (c : value) (e : ptr) : event :=
  EvCapture e (captured_args h c).

(** What a release-stage provider returns from the map [m], and the
    event it leaves. *)
Definition release_output (m : gmap ptr (list value)) (g : value) : list value :=
  match g with
  | VMade _ (Release e) => default [] (m !! e)
  | _ => []
  end.

Definition release_event (g : value) : event :=
  match g with
  | VMade _ (Release e) => EvRelease e
  | VMade _ (Capture e) => EvCapture e []
  | _ => EvRelease 0
  end.

(** The outcome of a resolution pass over constructors [cs] with entries
    [es], when the barrier meets the entries in the order [es'], their
    constructors return [outs] and leave the world [w3], and the heap
    after the capture stage is [h2]. *)
Definition pass_outcome (h : host) (fs : fsref) (argv : Arguments)
    (cs : list value) (es es' : list ptr) (h2 : gmap ptr entry)
    (tr : list event) (ens : list entry) (outs : list (list value))
    (w3 : World) : outcome (error + list (list value)) * state :=
  let m := store_outputs ∅ es' outs in
  let tr3 := tr ++ zip_with (capture_event h) cs es
                ++ zip_with constructor_event es' ens in
  let l := demand h (zip_with release_provider cs es) in
  if fs_Parsed fs w3 then
    (Returned (inr (map (release_output m) l)),
     {| heap := h2; world := w3; trace := tr3 ++ map release_event l |})
  else
    match fs_Parse fs argv w3 with
    | (Some err, w4) =>
        (Returned (inl err),
         {| heap := h2; world := w4; trace := tr3 ++ [EvAction fs argv] |})
    | (None, w4) =>
        (Returned (inr (map (release_output m) l)),
         {| heap := h2; world := w4;
            trace := tr3 ++ [EvAction fs argv] ++ map release_event l |})
    end.

End WithRuntime.

(** ** A small runtime to run the package on

    Flags are named by numbers.  The function with code [n] takes any
    arguments that match its inputs in number, defines flag [n] (defining
    a flag twice panics, as in [flag]), and returns one object per output.
    [Parse] accepts a payload when every token names a defined flag. *)
Module Demo.

Record flag_world := mkWorld {
  defined : gset string;
  parsed_already : bool;
}.

Definition flag_name (code : nat) : string := pretty code.

Definition call (fn : value) (given : list value) (w : flag_world)
  : outcome (list value) * flag_world :=
  match fn with
  | VFunc i o va code =>
      if negb (length given =? length i) then
        (Panicked "reflect: Call with wrong number of input arguments", w)
      else if decide (flag_name code ∈ defined w) then
        (Panicked "flag redefined", w)
      else
        (Returned (map (fun t => VObj t code) o),
         {| defined := {[flag_name code]} ∪ defined w;
            parsed_already := parsed_already w |})
  | _ => (Panicked "reflect: call of non-function", w)
  end.

Definition parse_tokens (fs : fsref) (payload : Arguments) (w : flag_world)
  : option error * flag_world :=
  (if forallb (fun tok => bool_decide (tok ∈ defined w)) payload then None
   else Some "flag provided but not defined",
   {| defined := defined w; parsed_already := true |}).

#[global] Program Instance runtime : Runtime := {|
  World := flag_world;
  fs_Parsed := fun _ w => parsed_already w;
  fs_Parse := parse_tokens;
  Call := call;
|}.
Next Obligation.
  intros fn ft given w outs w' Hty Hcall.
  destruct fn; simpl in *; try discriminate.
  destruct (negb _); [discriminate|].
  destruct (decide _); [discriminate|].
  injection Hcall as <- _. injection Hty as <-.
  simpl. by rewrite length_map.
Qed.

Definition w0 : flag_world := {| defined := ∅; parsed_already := false |}.
Definition st0 : state := {| heap := ∅; world := w0; trace := [] |}.

Definition flagsT (n : string) : rtype := TPtr (TStruct n).
Definition fsT : rtype := TPtr (TStruct "flag.FlagSet").

(** [func(fs *flag.FlagSet) *A] and [func(fs *flag.FlagSet) *B]. *)
Definition ctorA : value := VFunc [fsT] [flagsT "A"] false 0.
Definition ctorB : value := VFunc [fsT] [flagsT "B"] false 1.
(** [func(n int, names ...string) *V]. *)
Definition ctorV : value := VFunc [TInt; TSlice TString] [flagsT "V"] true 2.
(** [func()], with no outputs. *)
Definition ctorU : value := VFunc [] [] false 3.

(** The state after [Provide] and the capture stage for [ctorA] and
    [ctorB], and the same with a flag set that is parsed already. *)
Definition fs_arg : value := VObj fsT 7.
Definition captured_heap : gmap ptr entry :=
  <[0 := {| fn := ctorA; args := [fs_arg] |}]>
    (<[1 := {| fn := ctorB; args := [fs_arg] |}]> ∅).
Definition st_captured : state :=
  {| heap := captured_heap; world := w0; trace := [] |}.
Definition st_parsed : state :=
  {| heap := captured_heap;
     world := {| defined := ∅; parsed_already := true |};
     trace := [] |}.

(** The providers [Provide] makes for [ctorA] and [ctorB], and the state
    it leaves. *)
Definition providers : list value :=
  [capture_provider ctorA 0; release_provider ctorA 0;
   capture_provider ctorB 1; release_provider ctorB 1].
Definition st_registered : state :=
  {| heap := <[0 := {| fn := ctorA; args := [] |}]>
               (<[1 := {| fn := ctorB; args := [] |}]> ∅);
     world := w0; trace := [] |}.

Definition h0 : host := {|
  supply := fun t => VObj t 7;
  shuffle := fun l => rev l;
  demand := fun l => l;
|}.

(** A host that hands the group over in registration order. *)
Definition h1 : host := {|
  supply := fun t => VObj t 7;
  shuffle := fun l => l;
  demand := fun l => l;
|}.

End Demo.

(** ** A runtime whose constructors replace the flag set

    In Go a constructor may assign to [*fs], for instance a new flag
    set: whatever had been parsed is forgotten.  Here every function
    does so; the world counts the calls of [Parse]. *)
Module Overwrite.

Record fs_state := mkFs {
  is_parsed : bool;
  parse_calls : nat;
}.

Definition call (fn : value) (given : list value) (w : fs_state)
  : outcome (list value) * fs_state :=
  match fn with
  | VFunc i o va code =>
      (Returned (map (fun t => VObj t code) o),
       {| is_parsed := false; parse_calls := parse_calls w |})
  | _ => (Panicked "reflect: call of non-function", w)
  end.

Definition parse_all (fs : fsref) (payload : Arguments) (w : fs_state)
  : option error * fs_state :=
  (None, {| is_parsed := true; parse_calls := S (parse_calls w) |}).

Program Definition runtime : Runtime := {|
  World := fs_state;
  fs_Parsed := fun _ w => is_parsed w;
  fs_Parse := parse_all;
  Call := call;
|}.
Next Obligation.
  intros fn ft given w outs w' Hty Hcall.
  destruct fn; simpl in *; try discriminate.
  injection Hcall as <- _. injection Hty as <-.
  simpl. by rewrite length_map.
Qed.

(** [func() *T], registered and captured, on a flag set that is parsed. *)
Definition ctor : value := VFunc [] [TPtr (TStruct "T")] false 0.
Definition st_parsed : @state runtime :=
  @mkState runtime
    {[0 := {| fn := ctor; args := [] |}]}
    {| is_parsed := true; parse_calls := 0 |}
    [].

End Overwrite.

(** * Properties *)

Section Properties.
Context `{RT : Runtime}.

Implicit Types (st : state) (e : ptr) (es : list ptr) (c : value)
  (cs : list value) (tr : list event).

(** ** The monad *)

Lemma bind_Returned {A B} (m : M A) (k : A -> M B) st b st' :
  bind m k st = (Returned b, st') <->
  exists a st1, m st = (Returned a, st1) /\ k a st1 = (Returned b, st').
Proof.
  unfold bind. split.
  - destruct (m st) as [[a|msg] st1]; [eauto | discriminate].
  - intros (a & st1 & -> & Hk). exact Hk.
Qed.

Lemma bind_eq {A B} (m : M A) (k : A -> M B) st a st1 :
  m st = (Returned a, st1) -> bind m k st = k a st1.
Proof. unfold bind. by intros ->. Qed.

Lemma bind_panic {A B} (m : M A) (k : A -> M B) st msg st1 :
  m st = (Panicked msg, st1) -> bind m k st = (Panicked msg, st1).
Proof. unfold bind. by intros ->. Qed.

Lemma returned_eta {A S} (d : A) (r : outcome A * S) :
  is_returned r.1 = true -> r = (Returned (result_or d r), r.2).
Proof. destruct r as [[a|msg] s]; [done|discriminate]. Qed.

(** ** Reflection helpers *)

Lemma map_nth_seq {A} (l : list A) (d : A) :
  map (fun k => nth k l d) (seq 0 (length l)) = l.
Proof.
  induction l as [|a l IH]; [done|].
  simpl. f_equal. rewrite <- seq_shift, map_map. exact IH.
Qed.

Lemma ins_of_type ins outs va :
  map (In (TFunc ins outs va)) (seq 0 (NumIn (TFunc ins outs va))) = ins.
Proof. apply map_nth_seq. Qed.

Lemma outs_of_type ins outs va :
  map (Out (TFunc ins outs va)) (seq 0 (NumOut (TFunc ins outs va))) = outs.
Proof. apply map_nth_seq. Qed.

Lemma func_has_type c :
  Kind_of c = Func ->
  exists ins outs va, Type_of c = Some (TFunc ins outs va).
Proof.
  unfold Kind_of. destruct (Type_of c) as [t|]; [|discriminate].
  destruct t; try discriminate. eauto.
Qed.

(** ** Registration *)

Lemma alloc_all_length cs h : length (alloc_all cs h).1 = length cs.
Proof.
  revert h. induction cs as [|c cs IH]; intros h; [done|].
  simpl. specialize (IH (<[fresh (dom h) := {| fn := c; args := [] |}]> h)).
  destruct (alloc_all cs _) as [es h']. simpl in *. by rewrite IH.
Qed.

Lemma alloc_all_spec cs h :
  let '(es, h') := alloc_all cs h in
  NoDup es /\
  (forall e, e ∈ es -> h !! e = None) /\
  (forall e, e ∉ es -> h' !! e = h !! e) /\
  (forall i e, es !! i = Some e ->
     exists c, cs !! i = Some c /\ h' !! e = Some {| fn := c; args := [] |}).
Proof.
  revert h. induction cs as [|c cs IH]; intros h; simpl.
  - split; [constructor|]. split; [by intros e ?%elem_of_nil|].
    split; [done|]. intros i e. by rewrite lookup_nil.
  - set (e0 := fresh (dom h)).
    assert (Hfresh : h !! e0 = None).
    { apply not_elem_of_dom. apply is_fresh. }
    specialize (IH (<[e0 := {| fn := c; args := [] |}]> h)).
    destruct (alloc_all cs _) as [es h'].
    destruct IH as (Hnd & Hnew & Hold & Hreg).
    assert (Hnotin : e0 ∉ es).
    { intros Hin. apply Hnew in Hin. by rewrite lookup_insert_eq in Hin. }
    split; [by constructor|]. split; [|split].
    + intros e [->|Hin]%elem_of_cons; [done|].
      apply Hnew in Hin. destruct (decide (e0 = e)) as [->|Hne].
      * by rewrite lookup_insert_eq in Hin.
      * by rewrite lookup_insert_ne in Hin.
    + intros e Hne. apply not_elem_of_cons in Hne as [Hne1 Hne2].
      rewrite Hold by done. by rewrite lookup_insert_ne.
    + intros [|i] e Hi; simpl in *.
      * injection Hi as <-. exists c. split; [done|].
        rewrite Hold by done. by rewrite lookup_insert_eq.
      * by apply Hreg.
Qed.

(** The loop of [Provide] on a prefix of functions. *)
Lemma Provide_loop_funcs pre rest opts st :
  Forall (fun c => Kind_of c = Func) pre ->
  Provide_loop (pre ++ rest) opts st =
  Provide_loop rest
    (opts ++ zip_with provide_pair pre (alloc_all pre (heap st)).1)
    {| heap := (alloc_all pre (heap st)).2; world := world st; trace := trace st |}.
Proof.
  intros Hpre. revert opts st.
  induction Hpre as [|c pre Hc Hpre IH]; intros opts st.
  - simpl. rewrite app_nil_r. by destruct st.
  - simpl. destruct (decide (Kind_of c ≠ Func)) as [Hn|_]; [done|].
    destruct (func_has_type c Hc) as (ins & outs & va & Hty).
    rewrite Hty. unfold bind at 1, new_entry at 1.
    rewrite IH. simpl.
    destruct (alloc_all pre _) as [es h'] eqn:Hall. simpl.
    unfold provide_pair at 2, capture_provider, release_provider. rewrite Hty.
    by rewrite <- app_assoc.
Qed.

Lemma Provide_loop_stop v post opts st :
  Kind_of v ≠ Func ->
  Provide_loop (v :: post) opts st =
  (Returned (opts ++ [FxError "flagfx: Provide must be used with functions"]), st).
Proof. intros Hv. simpl. by destruct (decide (Kind_of v ≠ Func)). Qed.

Lemma alloc_all_keeps cs h e en :
  h !! e = Some en -> (alloc_all cs h).2 !! e = Some en.
Proof.
  intros He. pose proof (alloc_all_spec cs h) as Hspec.
  destruct (alloc_all cs h) as [es h']. simpl.
  destruct Hspec as (_ & Hnew & Hold & _).
  rewrite Hold; [done|]. intros Hin. apply Hnew in Hin. congruence.
Qed.

Lemma Provide_loop_total cs opts st :
  exists more st',
    Provide_loop cs opts st = (Returned (opts ++ more), st') /\
    world st' = world st /\ trace st' = trace st /\
    (forall e en, heap st !! e = Some en -> heap st' !! e = Some en).
Proof.
  revert opts st. induction cs as [|c cs IH]; intros opts st.
  - exists [], st. by rewrite app_nil_r.
  - destruct (decide (Kind_of c = Func)) as [Hc|Hc].
    + change (c :: cs) with ([c] ++ cs).
      rewrite (Provide_loop_funcs [c] cs opts st); [|by constructor].
      edestruct IH as (more & st' & -> & Hw & Ht & Hh).
      eexists (_ ++ more), st'. rewrite app_assoc.
      split; [done|]. split; [done|]. split; [done|].
      intros e en He. apply Hh. by apply (alloc_all_keeps [c]).
    + rewrite Provide_loop_stop by done.
      eexists _, st. eauto.
Qed.

Lemma first_non_function cs v :
  v ∈ cs -> Kind_of v ≠ Func ->
  exists pre v' post,
    cs = pre ++ v' :: post /\
    Forall (fun c => Kind_of c = Func) pre /\ Kind_of v' ≠ Func.
Proof.
  induction cs as [|c cs IH]; intros Hin Hv; [by apply elem_of_nil in Hin|].
  destruct (decide (Kind_of c = Func)) as [Hc|Hc].
  - apply elem_of_cons in Hin as [->|Hin]; [done|].
    destruct (IH Hin Hv) as (pre & v' & post & -> & Hpre & Hv').
    exists (c :: pre), v', post. split; [done|]. split; [by constructor|done].
  - exists [], c, cs. split; [done|]. split; [constructor|done].
Qed.

Lemma Provide_with_non_function pre v post st :
  Forall (fun c => Kind_of c = Func) pre ->
  Kind_of v ≠ Func ->
  Provide (pre ++ v :: post) st =
  (Returned (FxOptions (zip_with provide_pair pre (alloc_all pre (heap st)).1 ++
                        [FxError "flagfx: Provide must be used with functions"])),
   {| heap := (alloc_all pre (heap st)).2; world := world st; trace := trace st |}).
Proof.
  intros Hpre Hv. unfold Provide.
  erewrite bind_eq; [reflexivity|].
  rewrite Provide_loop_funcs by done. by rewrite Provide_loop_stop.
Qed.

Lemma Provide_functions cs st :
  Forall (fun c => Kind_of c = Func) cs ->
  Provide cs st =
  (Returned (FxOptions (zip_with provide_pair cs (alloc_all cs (heap st)).1)),
   {| heap := (alloc_all cs (heap st)).2; world := world st; trace := trace st |}).
Proof.
  intros Hcs. unfold Provide.
  erewrite bind_eq; [reflexivity|].
  rewrite <- (app_nil_r cs) at 1. by rewrite Provide_loop_funcs.
Qed.

Lemma provide_pair_lookup cs h i c :
  cs !! i = Some c ->
  exists e,
    (alloc_all cs h).1 !! i = Some e /\
    zip_with provide_pair cs (alloc_all cs h).1 !! i = Some (provide_pair c e) /\
    (alloc_all cs h).2 !! e = Some {| fn := c; args := [] |}.
Proof.
  intros Hc.
  pose proof (alloc_all_length cs h) as Hlen.
  pose proof (alloc_all_spec cs h) as Hspec.
  destruct (alloc_all cs h) as [es h']. simpl in *.
  destruct Hspec as (_ & _ & _ & Hreg).
  destruct (lookup_lt_is_Some_2 es i) as [e He].
  { rewrite Hlen. by eapply lookup_lt_Some. }
  exists e. split; [done|].
  destruct (Hreg i e He) as (c' & Hc' & Hh). simplify_eq.
  split; [|done]. rewrite lookup_zip_with. by rewrite Hc, He.
Qed.

(** C10: with a non-function among the constructors, [Provide] keeps
    the functions in front of the first one (a pair of providers and a
    fresh entry for each), appends one [fx.Error], and drops every
    constructor behind it: neither an option nor an entry is made for
    those. *)
Theorem Provide_stops_at_first_non_function pre v post st :
  Forall (fun c => Kind_of c = Func) pre ->
  Kind_of v ≠ Func ->
  exists provided st',
    Provide pre st = (Returned (FxOptions provided), st') /\
    Provide (pre ++ v :: post) st =
      (Returned (FxOptions
         (provided ++ [FxError "flagfx: Provide must be used with functions"])),
       st') /\
    length provided = length pre /\
    forall i c, pre !! i = Some c ->
      exists e t1 t2,
        provided !! i = Some (FxProvide [VMade t1 (Capture e); VMade t2 (Release e)]) /\
        heap st' !! e = Some {| fn := c; args := [] |}.
Proof.
  intros Hpre Hv. eexists _, _.
  split; [by apply Provide_functions|].
  split; [by apply Provide_with_non_function|].
  split.
  { rewrite length_zip_with, alloc_all_length. lia. }
  intros i c Hc. simpl.
  destruct (provide_pair_lookup pre (heap st) i c Hc) as (e & He & Hp & Hh).
  assert (Hfc : Kind_of c = Func).
  { rewrite Forall_forall in Hpre. apply Hpre. by eapply list_elem_of_lookup_2. }
  destruct (func_has_type c Hfc) as (ins & outs & va & Hty).
  exists e. unfold provide_pair, capture_provider, release_provider in Hp.
  rewrite Hty in Hp.
  eexists _, _. split; [exact Hp|exact Hh].
Qed.

Lemma provided_by_pairs cs h f :
  Forall (fun c => Kind_of c = Func) cs ->
  f ∈ flat_map option_provides (zip_with provide_pair cs (alloc_all cs h).1) ->
  exists t e c,
    (f = VMade t (Capture e) \/ f = VMade t (Release e)) /\
    e ∈ (alloc_all cs h).1 /\
    (alloc_all cs h).2 !! e = Some {| fn := c; args := [] |} /\
    Kind_of c = Func.
Proof.
  intros Hcs Hf.
  apply list_elem_of_In, in_flat_map in Hf as (o & Ho & Hf).
  apply list_elem_of_In, elem_of_lookup_zip_with in Ho
    as (i & c & e & -> & Hc & He).
  destruct (provide_pair_lookup cs h i c Hc) as (e' & He' & _ & Hh).
  simplify_eq.
  assert (Hfc : Kind_of c = Func).
  { rewrite Forall_forall in Hcs. apply Hcs. by eapply list_elem_of_lookup_2. }
  destruct (func_has_type c Hfc) as (ins & outs & va & Hty).
  unfold provide_pair, capture_provider, release_provider in Hf.
  rewrite Hty in Hf. simpl in Hf.
  assert (Hin : e ∈ (alloc_all cs h).1) by (by eapply list_elem_of_lookup_2).
  destruct Hf as [<-|[<-|[]]]; eexists _, e, c; eauto.
Qed.

(** C6: a constructor that is not a function makes [Provide] return an
    [fx.Error] option at once; every provider in the returned option
    belongs to an entry whose constructor is a function, so none was made
    for the offending value; and an application built with the option
    fails with a configuration error without running anything. *)
Theorem non_function_is_configuration_error h fs argv cs v st :
  v ∈ cs ->
  Kind_of v ≠ Func ->
  exists opts st',
    Provide cs st = (Returned (FxOptions opts), st') /\
    FxError "flagfx: Provide must be used with functions" ∈ opts /\
    (forall f, f ∈ option_provides (FxOptions opts) ->
       exists t e c,
         (f = VMade t (Capture e) \/ f = VMade t (Release e)) /\
         heap st' !! e = Some {| fn := c; args := [] |} /\
         Kind_of c = Func) /\
    (forall before after s,
       exists err,
         fx_New h fs argv (before ++ FxOptions opts :: after) s =
         (Returned (inl err), s)).
Proof.
  intros Hin Hv.
  destruct (first_non_function cs v Hin Hv) as (pre & v' & post & -> & Hpre & Hv').
  eexists _, _. split; [by apply Provide_with_non_function|].
  split; [apply elem_of_app; right; apply list_elem_of_singleton; done|].
  split.
  - intros f Hf. simpl in Hf. rewrite flat_map_app in Hf. simpl in Hf.
    rewrite app_nil_r in Hf.
    destruct (provided_by_pairs pre (heap st) f Hpre Hf)
      as (t & e & c & Hshape & _ & Hh & Hc).
    exists t, e, c. done.
  - intros before after s. unfold fx_New.
    destruct (flat_map option_errors _) as [|err errs] eqn:Herrs; [|eauto].
    exfalso.
    assert (Hmem : "flagfx: Provide must be used with functions"
                   ∈ flat_map option_errors
                       (before ++ FxOptions
                          (zip_with provide_pair pre (alloc_all pre (heap st)).1 ++
                           [FxError "flagfx: Provide must be used with functions"])
                        :: after)).
    { apply list_elem_of_In, in_flat_map. eexists. split.
      - apply in_or_app. right. left. reflexivity.
      - simpl. apply in_flat_map. eexists. split.
        + apply in_or_app. right. left. reflexivity.
        + simpl. by left. }
    rewrite Herrs in Hmem. by apply elem_of_nil in Hmem.
Qed.

Lemma fn1_stores e received s en :
  heap s !! e = Some en ->
  fn1 e received s =
  (Returned [VResult e],
   {| heap := <[e := {| fn := fn en; args := received |}]> (heap s);
      world := world s;
      trace := trace s ++ [EvCapture e received] |}).
Proof. intros He. unfold fn1, bind, set_args. by rewrite He. Qed.

(** C7, as amended: the capture-stage provider made for a function
    constructor has the constructor's parameter types, one for one, but
    is never variadic; its one output is the group-tagged [result]; and a
    call stores the received inputs in the entry's [args] slot, returns
    the entry, and does nothing else: the world is left alone and no
    constructor runs. *)
Theorem capture_stage_provider pre c post st :
  Forall (fun c => Kind_of c = Func) pre ->
  Kind_of c = Func ->
  exists ft e t1 t2 opts st',
    Type_of c = Some ft /\
    Provide (pre ++ c :: post) st = (Returned (FxOptions opts), st') /\
    opts !! length pre =
      Some (FxProvide [VMade t1 (Capture e); VMade t2 (Release e)]) /\
    heap st' !! e = Some {| fn := c; args := [] |} /\
    NumIn t1 = NumIn ft /\
    (forall i, i < NumIn ft -> In t1 i = In ft i) /\
    IsVariadic t1 = false /\
    NumOut t1 = 1 /\ Out t1 0 = resultType /\
    forall received s en,
      heap s !! e = Some en ->
      call_made (VMade t1 (Capture e)) received s =
      (Returned [VResult e],
       {| heap := <[e := {| fn := fn en; args := received |}]> (heap s);
          world := world s;
          trace := trace s ++ [EvCapture e received] |}).
Proof.
  intros Hpre Hc.
  destruct (func_has_type c Hc) as (ins & outs & va & Hty).
  assert (Hall : Forall (fun c => Kind_of c = Func) (pre ++ [c])).
  { apply Forall_app. split; [done|by constructor]. }
  destruct (provide_pair_lookup (pre ++ [c]) (heap st) (length pre) c)
    as (e & He & Hp & Hh).
  { by rewrite lookup_app_r, Nat.sub_diag by lia. }
  pose proof (alloc_all_spec (pre ++ [c]) (heap st)) as Hspec.
  destruct (Provide_loop_total post
              (zip_with provide_pair (pre ++ [c]) (alloc_all (pre ++ [c]) (heap st)).1)
              {| heap := (alloc_all (pre ++ [c]) (heap st)).2;
                 world := world st; trace := trace st |})
    as (more & st' & Hloop & _ & _ & Hkeep).
  assert (Hheap : heap st' !! e = Some {| fn := c; args := [] |}).
  { by apply Hkeep. }
  exists (TFunc ins outs va), e.
  eexists _, _, _, st'. split; [done|].
  split.
  { unfold Provide. erewrite bind_eq; [reflexivity|].
    replace (pre ++ c :: post) with ((pre ++ [c]) ++ post)
      by (by rewrite <- app_assoc).
    rewrite Provide_loop_funcs by done. rewrite app_nil_l. exact Hloop. }
  split.
  { rewrite lookup_app_l.
    - rewrite Hp. unfold provide_pair, capture_provider, release_provider.
      rewrite Hty. reflexivity.
    - rewrite length_zip_with, alloc_all_length, length_app. simpl. lia. }
  split; [done|].
  rewrite ins_of_type. simpl.
  split; [done|]. split; [done|]. split; [done|]. split; [done|]. split; [done|].
  intros received s en Hs. unfold call_made.
  erewrite bind_eq; [|by apply fn1_stores]. reflexivity.
Qed.

(** ** What a computation adds to the trace *)

Section Bounded.
Context (f : event -> bool).

Lemma bounded_ret {A} (a : A) : bounded f 0 (ret a).
Proof. intros st. exists []. by rewrite app_nil_r. Qed.

Lemma bounded_panic {A} msg : bounded f 0 (@panic _ A msg).
Proof. intros st. exists []. by rewrite app_nil_r. Qed.

Lemma bounded_weaken {A} n n' (m : M A) :
  n <= n' -> bounded f n m -> bounded f n' m.
Proof. intros Hle Hm st. destruct (Hm st) as (evs & ? & ?). exists evs. split; [done|lia]. Qed.

Lemma bounded_bind {A B} n k (m : M A) (g : A -> M B) :
  bounded f n m -> (forall a, bounded f k (g a)) -> bounded f (n + k) (bind m g).
Proof.
  intros Hm Hg st. unfold bind.
  destruct (Hm st) as (evs & Ht & Hn).
  destruct (m st) as [[a|msg] st1]; simpl in *.
  - destruct (Hg a st1) as (evs' & Ht' & Hk).
    exists (evs ++ evs'). rewrite Ht', Ht, app_assoc. split; [done|].
    rewrite List.filter_app, length_app. lia.
  - exists evs. split; [done|lia].
Qed.

Lemma bounded_bind0 {A B} (m : M A) (g : A -> M B) :
  bounded f 0 m -> (forall a, bounded f 0 (g a)) -> bounded f 0 (bind m g).
Proof. apply (bounded_bind 0 0). Qed.

Lemma bounded_log ev : bounded f (if f ev then 1 else 0) (log ev).
Proof.
  intros st. exists [ev]. split; [done|]. simpl. by destruct (f ev).
Qed.

Lemma bounded_on_world {A} (g : World -> A * World) : bounded f 0 (on_world g).
Proof.
  intros st. exists []. unfold on_world. destruct (g (world st)).
  by rewrite app_nil_r.
Qed.

Lemma bounded_on_world_may_panic {A} (g : World -> outcome A * World) :
  bounded f 0 (on_world_may_panic g).
Proof.
  intros st. exists []. unfold on_world_may_panic. destruct (g (world st)).
  by rewrite app_nil_r.
Qed.

Lemma bounded_deref e : bounded f 0 (deref e).
Proof.
  intros st. exists []. unfold deref. destruct (heap st !! e); by rewrite app_nil_r.
Qed.

Lemma bounded_mapM {A B} (g : A -> M B) (l : list A) :
  (forall a, bounded f 0 (g a)) -> bounded f 0 (mapM g l).
Proof.
  intros Hg. induction l as [|a l IH]; simpl.
  - apply bounded_ret.
  - apply bounded_bind0; [done|]. intros b.
    apply bounded_bind0; [done|]. intros bs. apply bounded_ret.
Qed.

Lemma bounded_fn1 e received :
  f (EvCapture e received) = false -> bounded f 0 (fn1 e received).
Proof.
  intros Hf st. unfold fn1, bind, set_args.
  destruct (heap st !! e); simpl.
  - exists [EvCapture e received]. split; [done|]. simpl. by rewrite Hf.
  - exists []. by rewrite app_nil_r.
Qed.

Lemma bounded_fn2 e received :
  f (EvRelease e) = false -> bounded f 0 (fn2 e received).
Proof.
  intros Hf. unfold fn2. destruct (negb _); [apply bounded_panic|].
  apply bounded_bind0.
  - unfold typeAssert. destruct (nth 0 received VNil);
      first [apply bounded_panic | apply bounded_ret].
  - intros [[res|] ok]; destruct ok; simpl;
      try apply bounded_panic.
    apply bounded_bind0; [|intros; apply bounded_ret].
    pose proof (bounded_log (EvRelease e)) as Hlog. by rewrite Hf in Hlog.
Qed.

Lemma bounded_call_made g received :
  (forall e a, f (EvCapture e a) = false) ->
  (forall e, f (EvRelease e) = false) ->
  bounded f 0 (call_made g received).
Proof.
  intros Hc Hr. unfold call_made.
  destruct g as [| | | | | |t [e|e]| |]; try apply bounded_panic.
  all: apply bounded_bind0; [by first [apply bounded_fn1|apply bounded_fn2]|].
  all: intros out; destruct (_ =? _); [apply bounded_ret|apply bounded_panic].
Qed.
Lemma bounded_parse_loop es res :
  (forall e a, f (EvConstructor e a) = false) ->
  bounded f 0 (parse_loop es res).
Proof.
  intros Hc. revert res. induction es as [|e es IH]; intros res; simpl.
  - apply bounded_ret.
  - apply bounded_bind0; [|intros; apply IH].
    unfold call_constructor. apply bounded_bind0; [apply bounded_deref|].
    intros en. apply bounded_bind0; [|intros; apply bounded_on_world_may_panic].
    pose proof (bounded_log (EvConstructor e (args en))) as Hlog.
    by rewrite Hc in Hlog.
Qed.

Lemma bounded_Provide cs : bounded f 0 (Provide cs).
Proof.
  intros st. exists []. unfold Provide, bind.
  destruct (Provide_loop_total cs [] st) as (more & st' & -> & _ & Ht & _).
  simpl. by rewrite Ht, app_nil_r.
Qed.

End Bounded.

Lemma new_events_bounded {A} f n (m : M A) st :
  bounded f n m -> length (List.filter f (new_events m st)) <= n.
Proof.
  intros Hm. destruct (Hm st) as (evs & Ht & Hn).
  unfold new_events. rewrite Ht. by rewrite drop_app_length.
Qed.

Lemma bounded_parse fs argv p : bounded is_action 1 (parse fs argv p).
Proof.
  unfold parse.
  apply (bounded_bind _ 0 1); [by apply bounded_parse_loop|]. intros res.
  apply (bounded_bind _ 0 1); [apply bounded_on_world|]. intros done_.
  apply (bounded_bind _ 1 0).
  - destruct (negb done_); [|eapply bounded_weaken; [|apply bounded_ret]; lia].
    apply (bounded_bind _ 1 0); [apply (bounded_log is_action (EvAction fs argv))|].
    intros; apply bounded_on_world.
  - intros [err|]; apply bounded_ret.
Qed.

Lemma bounded_resolve h fs argv provided :
  bounded is_action 1 (resolve h fs argv provided).
Proof.
  unfold resolve.
  apply (bounded_bind _ 0 1).
  { apply bounded_mapM. intros g. by apply bounded_call_made. }
  intros results.
  apply (bounded_bind _ 1 0); [apply bounded_parse|].
  intros [res [err|]]; [apply bounded_ret|].
  apply bounded_bind0; [|intros; apply bounded_ret].
  apply bounded_mapM. intros g. by apply bounded_call_made.
Qed.

(** ** The loop of [parse] against [run_entries] *)

Lemma call_constructor_eq e en st :
  heap st !! e = Some en ->
  call_constructor e st =
  ((Call (fn en) (args en) (world st)).1,
   {| heap := heap st;
      world := (Call (fn en) (args en) (world st)).2;
      trace := trace st ++ [constructor_event e en] |}).
Proof.
  intros He. unfold call_constructor, bind, deref. rewrite He.
  unfold log, on_world_may_panic. simpl.
  by destruct (Call (fn en) (args en) (world st)).
Qed.

Lemma call_constructor_Returned e st outs st' :
  call_constructor e st = (Returned outs, st') ->
  exists en, heap st !! e = Some en.
Proof.
  unfold call_constructor, bind, deref.
  destruct (heap st !! e) as [en|]; [eauto|discriminate].
Qed.

Lemma run_entries_length ens w outs w' :
  run_entries ens w = (Returned outs, w') -> length outs = length ens.
Proof.
  revert w outs. induction ens as [|en ens IH]; intros w outs; simpl.
  - by intros [= <- _].
  - destruct (Call (fn en) (args en) w) as [[o|msg] w1]; [|by intros [=]].
    destruct (run_entries ens w1) as [[rest|msg] w2] eqn:Hrest; [|by intros [=]].
    intros [= <- <-]. simpl. f_equal. by eapply IH.
Qed.

Lemma parse_loop_run es ens res st outs w2 :
  Forall2 (fun e en => heap st !! e = Some en) es ens ->
  run_entries ens (world st) = (Returned outs, w2) ->
  parse_loop es res st =
  (Returned (mkParsed (store_outputs (entries res) es outs)),
   {| heap := heap st; world := w2;
      trace := trace st ++ zip_with constructor_event es ens |}).
Proof.
  revert ens res st outs w2.
  induction es as [|e es IH]; intros ens res st outs w2 Hall Hrun.
  - apply Forall2_nil_inv_l in Hall as ->. simpl in *.
    injection Hrun as <- <-. destruct res, st. simpl. by rewrite app_nil_r.
  - apply Forall2_cons_inv_l in Hall as (en & ens' & He & Hall & ->).
    simpl in Hrun.
    destruct (Call (fn en) (args en) (world st)) as [[o|msg] w1] eqn:Hcall;
      [|discriminate].
    destruct (run_entries ens' w1) as [[rest|msg] w2'] eqn:Hrest; [|discriminate].
    injection Hrun as <- <-.
    simpl. erewrite bind_eq; [|rewrite (call_constructor_eq e en st He), Hcall; reflexivity].
    erewrite IH; [|exact Hall|exact Hrest].
    simpl. by rewrite <- app_assoc.
Qed.

Lemma parse_loop_inv es res st res' st' :
  parse_loop es res st = (Returned res', st') ->
  exists ens outs,
    Forall2 (fun e en => heap st !! e = Some en) es ens /\
    run_entries ens (world st) = (Returned outs, world st').
Proof.
  revert res st. induction es as [|e es IH]; intros res st; simpl.
  - intros [= <- <-]. exists [], []. split; [constructor|done].
  - intros (o & st1 & Hcall & Hloop)%bind_Returned.
    destruct (call_constructor_Returned _ _ _ _ Hcall) as [en He].
    rewrite (call_constructor_eq e en st He) in Hcall.
    destruct (Call (fn en) (args en) (world st)) as [r w1] eqn:Hc.
    simpl in Hcall. injection Hcall as -> <-.
    destruct (IH _ _ Hloop) as (ens & outs & Hall & Hrun). simpl in *.
    exists (en :: ens), (o :: outs). split; [by constructor|].
    simpl. by rewrite Hc, Hrun.
Qed.

Lemma store_outputs_notin m es outs e :
  e ∉ es -> store_outputs m es outs !! e = m !! e.
Proof.
  unfold store_outputs. revert m outs.
  induction es as [|e' es IH]; intros m outs Hnotin; [done|].
  apply not_elem_of_cons in Hnotin as [Hne Hnotin].
  destruct outs as [|o outs]; [done|]. simpl.
  rewrite IH by done. by rewrite lookup_insert_ne.
Qed.

Lemma store_outputs_lookup m es outs i e o :
  NoDup es ->
  es !! i = Some e -> outs !! i = Some o ->
  store_outputs m es outs !! e = Some o.
Proof.
  unfold store_outputs. revert m outs i.
  induction es as [|e' es IH]; intros m outs i Hnd He Ho; [done|].
  apply NoDup_cons in Hnd as [Hnotin Hnd].
  destruct outs as [|o' outs]; [by destruct i|].
  destruct i as [|i]; simpl in *.
  - injection He as ->. injection Ho as ->.
    pose proof (store_outputs_notin (<[e:=o]> m) es outs e Hnotin) as Hl.
    unfold store_outputs in Hl. rewrite Hl. by rewrite lookup_insert_eq.
  - by eapply IH.
Qed.

Lemma constructor_runs_app e tr1 tr2 :
  constructor_runs e (tr1 ++ tr2) = constructor_runs e tr1 + constructor_runs e tr2.
Proof. unfold constructor_runs. by rewrite List.filter_app, length_app. Qed.

Lemma constructor_runs_notin e es ens :
  e ∉ es -> constructor_runs e (zip_with constructor_event es ens) = 0.
Proof.
  revert ens. induction es as [|e' es IH]; intros ens Hnotin; [done|].
  apply not_elem_of_cons in Hnotin as [Hne Hnotin].
  destruct ens as [|en ens]; [done|].
  unfold constructor_runs in *. simpl.
  rewrite bool_decide_eq_false_2 by done. by apply IH.
Qed.

Lemma constructor_runs_once e es ens :
  NoDup es -> length es = length ens -> e ∈ es ->
  constructor_runs e (zip_with constructor_event es ens) = 1.
Proof.
  revert ens. induction es as [|e' es IH]; intros ens Hnd Hlen Hin;
    [by apply elem_of_nil in Hin|].
  apply NoDup_cons in Hnd as [Hnotin Hnd].
  destruct ens as [|en ens]; [done|]. simpl in Hlen.
  change (zip_with constructor_event (e' :: es) (en :: ens))
    with ([constructor_event e' en] ++ zip_with constructor_event es ens).
  rewrite constructor_runs_app.
  apply elem_of_cons in Hin as [->|Hin].
  - rewrite constructor_runs_notin by done.
    unfold constructor_runs. simpl. by rewrite bool_decide_eq_true_2.
  - rewrite IH by (done || lia).
    unfold constructor_runs. simpl.
    rewrite bool_decide_eq_false_2; [done|]. intros ->. done.
Qed.

Lemma parse_loop_app es1 es2 res st :
  parse_loop (es1 ++ es2) res st =
  bind (parse_loop es1 res) (fun res1 => parse_loop es2 res1) st.
Proof.
  revert res st. induction es1 as [|e es1 IH]; intros res st; simpl.
  - done.
  - unfold bind in *.
    destruct (call_constructor e st) as [[outs|msg] st1]; [|done].
    apply IH.
Qed.

Lemma parse_loop_exact es res st res' st' :
  parse_loop es res st = (Returned res', st') ->
  exists ens outs,
    Forall2 (fun e en => heap st !! e = Some en) es ens /\
    run_entries ens (world st) = (Returned outs, world st') /\
    res' = mkParsed (store_outputs (entries res) es outs) /\
    st' = {| heap := heap st; world := world st';
             trace := trace st ++ zip_with constructor_event es ens |}.
Proof.
  intros Hloop.
  destruct (parse_loop_inv _ _ _ _ _ Hloop) as (ens & outs & Hall & Hrun).
  exists ens, outs. split; [done|]. split; [done|].
  rewrite (parse_loop_run es ens res st outs _ Hall Hrun) in Hloop.
  injection Hloop as <- <-. done.
Qed.

(** [parse] in terms of its loop and the two calls on the flag set. *)
Lemma parse_after_loop fs argv p st res st2 :
  parse_loop (Entries p) (mkParsed ∅) st = (Returned res, st2) ->
  parse fs argv p st =
  if fs_Parsed fs (world st2) then (Returned (Some res, None), st2)
  else
    let st3 := {| heap := heap st2;
                  world := (fs_Parse fs argv (world st2)).2;
                  trace := trace st2 ++ [EvAction fs argv] |} in
    match (fs_Parse fs argv (world st2)).1 with
    | Some err => (Returned (None, Some err), st3)
    | None => (Returned (Some res, None), st3)
    end.
Proof.
  intros Hloop. unfold parse.
  erewrite bind_eq; [|exact Hloop].
  unfold bind, on_world, log. simpl.
  destruct (fs_Parsed fs (world st2)); simpl.
  - by destruct st2.
  - by destruct (fs_Parse fs argv (world st2)) as [[err|] w3].
Qed.

Lemma parse_Returned fs argv p st r st' :
  parse fs argv p st = (Returned r, st') ->
  exists res st2, parse_loop (Entries p) (mkParsed ∅) st = (Returned res, st2).
Proof.
  unfold parse. intros (res & st2 & Hloop & _)%bind_Returned. eauto.
Qed.

Lemma parse_success fs argv p st res st' :
  parse fs argv p st = (Returned (Some res, None), st') ->
  exists st2, parse_loop (Entries p) (mkParsed ∅) st = (Returned res, st2).
Proof.
  intros Hparse.
  destruct (parse_Returned _ _ _ _ _ _ Hparse) as (res' & st2 & Hloop).
  rewrite (parse_after_loop fs argv p st res' st2 Hloop) in Hparse.
  exists st2. destruct (fs_Parsed fs (world st2)).
  - by injection Hparse as -> _.
  - simpl in Hparse. destruct (fs_Parse fs argv (world st2)).1;
      [discriminate|]. by injection Hparse as -> _.
Qed.

Lemma fn2_lookup e res s :
  fn2 e [VParsed (Some res)] s =
  (Returned (default [] (entries res !! e)),
   {| heap := heap s; world := world s; trace := trace s ++ [EvRelease e] |}).
Proof. reflexivity. Qed.

(** The world the loop of [parse] leaves is the work of the constructors
    it reached, and of nothing else. *)
Lemma parse_loop_world es res st :
  exists ens,
    Forall (fun en => exists e, e ∈ es /\ heap st !! e = Some en) ens /\
    world (parse_loop es res st).2 = (run_entries ens (world st)).2.
Proof.
  revert res st. induction es as [|e es IH]; intros res st.
  - exists []. split; [constructor|done].
  - simpl. unfold bind.
    destruct (heap st !! e) as [en|] eqn:He.
    + rewrite (call_constructor_eq e en st He).
      destruct (Call (fn en) (args en) (world st)) as [[o|msg] w1] eqn:Hc; simpl.
      * edestruct IH as (ens & Hens & Hw). rewrite Hw. simpl.
        exists (en :: ens). split.
        { constructor; [exists e; split; [by left|done]|].
          eapply Forall_impl; [exact Hens|].
          intros en' (e' & ? & ?). exists e'. split; [by right|done]. }
        simpl. rewrite Hc. by destruct (run_entries ens w1) as [[rest|m] w2].
      * exists [en]. split.
        { constructor; [exists e; split; [by left|done]|constructor]. }
        simpl. by rewrite Hc.
    + exists []. split; [constructor|].
      unfold call_constructor, bind, deref. by rewrite He.
Qed.

(** C3: whatever the number of entries, one run of [parse] invokes
    [fs.Parse] at most once: the world it leaves is the world the
    constructors leave, either as it is or after one application of
    [fs.Parse], the latter exactly when the loop returned and the flag
    set was not parsed; the trace shows the call as often.  A whole
    resolution pass, from registration to the release stage, shows at
    most one call as well. *)
Theorem action_at_most_once h fs argv p cs st :
  (exists ens,
     Forall (fun en => exists e, e ∈ Entries p /\ heap st !! e = Some en) ens /\
     let w2 := (run_entries ens (world st)).2 in
     let invoked :=
       is_returned (parse_loop (Entries p) (mkParsed ∅) st).1
       && negb (fs_Parsed fs w2) in
     world (parse_loop (Entries p) (mkParsed ∅) st).2 = w2 /\
     world (parse fs argv p st).2
       = (if invoked then (fs_Parse fs argv w2).2 else w2) /\
     action_runs (new_events (parse fs argv p) st)
       = (if invoked then 1 else 0)) /\
  action_runs (new_events (parse fs argv p) st) <= 1 /\
  action_runs (new_events (register_and_run h fs argv cs) st) <= 1.
Proof.
  split; [|split].
  - destruct (parse_loop_world (Entries p) (mkParsed ∅) st) as (ens & Hens & Hw).
    exists ens. split; [done|]. cbn zeta. split; [done|].
    rewrite <- Hw.
    destruct (bounded_parse_loop is_action (Entries p) (mkParsed ∅)
                (fun _ _ => eq_refl) st) as (evs & Ht & Hn).
    apply Nat.le_0_r in Hn.
    unfold new_events, action_runs, parse, bind.
    destruct (parse_loop (Entries p) (mkParsed ∅) st) as [[res|msg] st2];
      simpl in *.
    + unfold on_world, log, ret. simpl.
      destruct (fs_Parsed fs (world st2)); simpl.
      * rewrite Ht, drop_app_length. done.
      * destruct (fs_Parse fs argv (world st2)) as [[err|] w3]; simpl;
          rewrite Ht, <- app_assoc, drop_app_length, List.filter_app, length_app;
          rewrite Hn; done.
    + rewrite Ht, drop_app_length. done.
  - apply new_events_bounded, bounded_parse.
  - apply new_events_bounded.
    unfold register_and_run.
    apply (bounded_bind _ 0 1); [apply bounded_Provide|].
    intros opt. unfold fx_New.
    destruct (flat_map option_errors [opt]);
      [apply bounded_resolve|].
    eapply bounded_weaken; [|apply bounded_ret]. lia.
Qed.

(** C2: after a successful run of the barrier, the release-stage
    provider of an entry returns exactly the values that the call of the
    entry's constructor on the captured arguments returned, at the moment
    the loop of the barrier reached the entry. *)
Theorem release_returns_constructor_outputs
    fs argv pre e post st res st' en ft s :
  e ∉ post ->
  heap st !! e = Some en ->
  Type_of (fn en) = Some ft ->
  parse fs argv {| Entries := pre ++ e :: post |} st
    = (Returned (Some res, None), st') ->
  exists res1 st1 outs w1,
    parse_loop pre (mkParsed ∅) st = (Returned res1, st1) /\
    Call (fn en) (args en) (world st1) = (Returned outs, w1) /\
    call_made
      (MakeFunc (FuncOf parsedPtrTypes (map (Out ft) (seq 0 (NumOut ft))) false)
                (Release e))
      [VParsed (Some res)] s
    = (Returned outs,
       {| heap := heap s; world := world s; trace := trace s ++ [EvRelease e] |}).
Proof.
  intros Hpost He Hty Hparse.
  destruct (parse_success _ _ _ _ _ _ Hparse) as (st2 & Hloop). simpl in Hloop.
  rewrite parse_loop_app in Hloop.
  apply bind_Returned in Hloop as (res1 & st1 & Hpre & Hrest).
  simpl in Hrest.
  apply bind_Returned in Hrest as (outs & st1' & Hcall & Hpostloop).
  destruct (parse_loop_exact _ _ _ _ _ Hpre) as (ens1 & outs1 & _ & _ & _ & Hst1).
  assert (Hheap : heap st1 = heap st) by (by rewrite Hst1).
  rewrite (call_constructor_eq e en st1) in Hcall by (by rewrite Hheap).
  destruct (Call (fn en) (args en) (world st1)) as [r w1] eqn:Hc.
  simpl in Hcall. injection Hcall as -> _.
  destruct (parse_loop_exact _ _ _ _ _ Hpostloop) as (ens' & outs' & _ & _ & -> & _).
  exists res1, st1, outs, w1. split; [done|]. split; [done|].
  unfold call_made, MakeFunc. erewrite bind_eq; [|apply fn2_lookup].
  cbn [entries]. rewrite store_outputs_notin by done.
  rewrite lookup_insert_eq. simpl.
  rewrite length_map, length_seq.
  rewrite (Call_NumOut _ _ _ _ _ _ Hty Hc), Nat.eqb_refl. done.
Qed.

Lemma bounded_capture_stage f h provided :
  (forall e a, f (EvCapture e a) = false) ->
  bounded f 0 (mapM (call_capture h) (List.filter is_capture provided)).
Proof.
  intros Hf. induction provided as [|g provided IH]; simpl.
  - apply bounded_ret.
  - destruct (is_capture g) eqn:Hg; [|done]. simpl.
    apply bounded_bind0; [|intros; apply bounded_bind0;
                            [done|intros; apply bounded_ret]].
    unfold call_capture, call_made.
    destruct g as [| | | | | |t [e|e]| |]; try discriminate.
    apply bounded_bind0; [by apply bounded_fn1|].
    intros out. destruct (_ =? _); [apply bounded_ret|apply bounded_panic].
Qed.

(** C4: when [fs.Parse] rejects the payload, [parse] returns the error
    and no [*parsed]; the resolution pass fails with that error and
    delivers no outputs, and no release-stage provider returns anything,
    although every constructor has already run. *)
Theorem action_failure_fails_barrier
    h fs argv provided st results st1 res st2 err w3 :
  mapM (call_capture h) (List.filter is_capture provided) st
    = (Returned results, st1) ->
  parse_loop (shuffle h (group_entries results)) (mkParsed ∅) st1
    = (Returned res, st2) ->
  fs_Parsed fs (world st2) = false ->
  fs_Parse fs argv (world st2) = (Some err, w3) ->
  let st3 := {| heap := heap st2; world := w3;
                trace := trace st2 ++ [EvAction fs argv] |} in
  parse fs argv {| Entries := shuffle h (group_entries results) |} st1
    = (Returned (None, Some err), st3) /\
  resolve h fs argv provided st = (Returned (inl err), st3) /\
  List.filter is_release_event (new_events (resolve h fs argv provided) st) = [].
Proof.
  intros Hcap Hloop Hparsed Hfail st3.
  assert (Hparse :
    parse fs argv {| Entries := shuffle h (group_entries results) |} st1
    = (Returned (None, Some err), st3)).
  { rewrite (parse_after_loop fs argv _ st1 res st2) by done.
    rewrite Hparsed, Hfail. done. }
  assert (Hres : resolve h fs argv provided st = (Returned (inl err), st3)).
  { unfold resolve. erewrite bind_eq; [|exact Hcap].
    erewrite bind_eq; [|exact Hparse]. done. }
  split; [done|]. split; [done|].
  unfold new_events. rewrite Hres. subst st3. simpl.
  destruct (bounded_capture_stage is_release_event h provided
              (fun _ _ => eq_refl) st) as (evs1 & Ht1 & Hn1).
  destruct (bounded_parse_loop is_release_event
              (shuffle h (group_entries results)) (mkParsed ∅)
              (fun _ _ => eq_refl) st1) as (evs2 & Ht2 & Hn2).
  rewrite Hcap in Ht1. rewrite Hloop in Ht2. simpl in Ht1, Ht2.
  rewrite Ht2, Ht1, <- !app_assoc, drop_app_length.
  rewrite !List.filter_app. simpl.
  apply Nat.le_0_r, length_zero_iff_nil in Hn1, Hn2.
  by rewrite Hn1, Hn2.
Qed.

(** C5, as amended: when the flag set reports that it is parsed at the
    moment [parse] asks, which is after the constructors have run,
    [parse] does not call [fs.Parse]: the world it leaves is the one
    the constructors leave.  It has called the constructor of every
    entry, once, and returns a [*parsed] that maps every entry to the
    values its constructor returned. *)
Theorem already_parsed_skips_action fs argv es ens outs w2 st :
  NoDup es ->
  Forall2 (fun e en => heap st !! e = Some en) es ens ->
  run_entries ens (world st) = (Returned outs, w2) ->
  fs_Parsed fs w2 = true ->
  exists res st2,
    parse fs argv {| Entries := es |} st = (Returned (Some res, None), st2) /\
    world st2 = w2 /\
    action_runs (new_events (parse fs argv {| Entries := es |}) st) = 0 /\
    (forall e, e ∈ es ->
       constructor_runs e (new_events (parse fs argv {| Entries := es |}) st) = 1) /\
    (forall e, e ∈ es ->
       exists i o, es !! i = Some e /\ outs !! i = Some o /\
                   entries res !! e = Some o).
Proof.
  intros Hnd Hall Hrun Hstill.
  pose proof (parse_loop_run es ens (mkParsed ∅) st outs w2 Hall Hrun) as Hloop.
  pose proof (parse_after_loop fs argv {| Entries := es |} st _ _ Hloop) as Hparse.
  simpl in Hparse. rewrite Hstill in Hparse.
  eexists _, _. split; [exact Hparse|]. split; [done|].
  unfold new_events. rewrite Hparse. simpl. rewrite drop_app_length.
  pose proof (Forall2_length _ _ _ Hall) as Hlen.
  split; [|split].
  - unfold action_runs. apply length_zero_iff_nil.
    clear. revert ens. induction es as [|e es IH]; intros [|en ens]; simpl; auto.
  - intros e He. by apply constructor_runs_once.
  - intros e He. apply list_elem_of_lookup in He as [i Hi].
    destruct (lookup_lt_is_Some_2 outs i) as [o Ho].
    { rewrite (run_entries_length _ _ _ _ Hrun), <- Hlen.
      by eapply lookup_lt_Some. }
    exists i, o. split; [done|]. split; [done|].
    cbn [entries]. by eapply store_outputs_lookup.
Qed.

(** C8, as amended: the release-stage closure panics when it is not
    given exactly one argument, or when the argument is not a [*parsed];
    when its entry is missing from the map, the closure itself returns
    the nil slice, which [reflect] turns into a panic exactly when the
    constructor declares at least one output. *)
Theorem release_stage_missing_entry e t res st :
  entries res !! e = None ->
  let st' := {| heap := heap st; world := world st;
                trace := trace st ++ [EvRelease e] |} in
  fn2 e [VParsed (Some res)] st = (Returned [], st') /\
  call_made (MakeFunc t (Release e)) [VParsed (Some res)] st =
    (if NumOut t =? 0 then Returned []
     else Panicked "reflect: wrong return count from function created by MakeFunc",
     st') /\
  (forall given, length given ≠ 1 ->
     fn2 e given st = (Panicked "flagfx: unexpected number of arguments", st)) /\
  (forall v, (forall p, v ≠ VParsed p) ->
     exists msg, fn2 e [v] st = (Panicked msg, st)).
Proof.
  intros Habsent st'.
  assert (Hfn2 : fn2 e [VParsed (Some res)] st = (Returned [], st')).
  { rewrite fn2_lookup, Habsent. done. }
  split; [done|]. split; [|split].
  - unfold call_made, MakeFunc. erewrite bind_eq; [|exact Hfn2].
    simpl. by destruct (NumOut t).
  - intros given Hlen. unfold fn2.
    destruct (length given =? 1) eqn:Heq; [|done].
    by apply Nat.eqb_eq in Heq.
  - intros v Hv. unfold fn2. simpl.
    destruct v; try (eexists; reflexivity).
    by destruct (Hv p).
Qed.

(** ** One resolution pass, stage by stage *)

Lemma alloc_all_Forall2 cs h :
  Forall2 (fun c e => (alloc_all cs h).2 !! e = Some {| fn := c; args := [] |})
          cs (alloc_all cs h).1.
Proof.
  apply Forall2_same_length_lookup. split; [by rewrite alloc_all_length|].
  intros i c e Hc He.
  destruct (provide_pair_lookup cs h i c Hc) as (e' & He' & _ & Hh).
  by simplify_eq.
Qed.

Lemma alloc_all_NoDup cs h : NoDup (alloc_all cs h).1.
Proof.
  pose proof (alloc_all_spec cs h) as Hspec.
  destruct (alloc_all cs h). by destruct Hspec.
Qed.

Lemma pairs_no_errors cs es :
  flat_map option_errors (zip_with provide_pair cs es) = [].
Proof.
  revert es. induction cs as [|c cs IH]; intros [|e es]; simpl; auto.
Qed.

Lemma provider_kinds c e :
  Kind_of c = Func ->
  is_capture (capture_provider c e) = true /\
  is_release (capture_provider c e) = false /\
  is_capture (release_provider c e) = false /\
  is_release (release_provider c e) = true.
Proof.
  intros Hc. destruct (func_has_type c Hc) as (ins & outs & va & Hty).
  unfold capture_provider, release_provider. by rewrite Hty.
Qed.

Lemma pairs_captures cs es :
  Forall (fun c => Kind_of c = Func) cs ->
  List.filter is_capture (flat_map option_provides (zip_with provide_pair cs es))
  = zip_with capture_provider cs es.
Proof.
  intros Hcs. revert es. induction Hcs as [|c cs Hc Hcs IH]; intros [|e es];
    try done.
  destruct (provider_kinds c e Hc) as (H1 & _ & H2 & _).
  cbn [zip_with flat_map option_provides provide_pair app List.filter].
  by rewrite H1, H2, IH.
Qed.

Lemma pairs_releases cs es :
  Forall (fun c => Kind_of c = Func) cs ->
  List.filter is_release (flat_map option_provides (zip_with provide_pair cs es))
  = zip_with release_provider cs es.
Proof.
  intros Hcs. revert es. induction Hcs as [|c cs Hc Hcs IH]; intros [|e es];
    try done.
  destruct (provider_kinds c e Hc) as (_ & H1 & _ & H2).
  cbn [zip_with flat_map option_provides provide_pair app List.filter].
  by rewrite H1, H2, IH.
Qed.

Lemma call_capture_provider h c e a st :
  Kind_of c = Func ->
  heap st !! e = Some {| fn := c; args := a |} ->
  call_capture h (capture_provider c e) st =
  (Returned [VResult e],
   {| heap := <[e := {| fn := c; args := captured_args h c |}]> (heap st);
      world := world st;
      trace := trace st ++ [capture_event h c e] |}).
Proof.
  intros Hc He.
  destruct (func_has_type c Hc) as (ins & outs & va & Hty).
  unfold capture_provider, capture_event, captured_args, call_capture. rewrite Hty.
  rewrite ins_of_type. unfold call_made, MakeFunc.
  erewrite bind_eq; [|by eapply fn1_stores]. reflexivity.
Qed.

Lemma capture_stage_exact h cs es st :
  Forall (fun c => Kind_of c = Func) cs ->
  NoDup es ->
  Forall2 (fun c e => exists a, heap st !! e = Some {| fn := c; args := a |}) cs es ->
  exists h2,
    mapM (call_capture h) (zip_with capture_provider cs es) st =
    (Returned (map (fun e => [VResult e]) es),
     {| heap := h2; world := world st;
        trace := trace st ++ zip_with (capture_event h) cs es |}) /\
    Forall2 (fun c e => h2 !! e = Some {| fn := c; args := captured_args h c |})
            cs es /\
    (forall e, e ∉ es -> h2 !! e = heap st !! e).
Proof.
  revert es st. induction cs as [|c cs IH]; intros es st Hcs Hnd Hall.
  - apply Forall2_nil_inv_l in Hall as ->.
    exists (heap st). simpl. rewrite app_nil_r. destruct st. simpl.
    split; [done|]. split; [constructor|done].
  - apply Forall2_cons_inv_l in Hall as (e & es' & [a He] & Hall & ->).
    apply Forall_cons in Hcs as [Hc Hcs].
    apply NoDup_cons in Hnd as [Hnotin Hnd].
    set (st1 := {| heap := <[e := {| fn := c; args := captured_args h c |}]> (heap st);
                   world := world st;
                   trace := trace st ++ [capture_event h c e] |}).
    destruct (IH es' st1) as (h2 & Hrun & Hfin & Hold); [done|done| |].
    { apply Forall2_same_length_lookup. split; [by eapply Forall2_length|].
      intros i c' e' Hc' He'.
      destruct (Forall2_lookup_lr _ _ _ _ _ _ Hall Hc' He') as [a' Ha'].
      exists a'. simpl. rewrite lookup_insert_ne; [done|]. intros <-.
      apply Hnotin. by eapply list_elem_of_lookup_2. }
    exists h2. simpl.
    erewrite bind_eq; [|by eapply call_capture_provider].
    fold st1. erewrite bind_eq; [|exact Hrun].
    unfold ret. simpl. rewrite <- app_assoc. simpl.
    split; [done|]. split.
    + constructor; [|done]. rewrite Hold by done. simpl.
      by rewrite lookup_insert_eq.
    + intros e' Hne. apply not_elem_of_cons in Hne as [Hne1 Hne2].
      rewrite Hold by done. simpl. by rewrite lookup_insert_ne.
Qed.

Lemma group_entries_results es :
  group_entries (map (fun e => [VResult e]) es) = es.
Proof. induction es as [|e es IH]; [done|]. simpl. by rewrite IH. Qed.

Lemma run_entries_NumOut ens w outs w' :
  run_entries ens w = (Returned outs, w') ->
  Forall2 (fun en o => forall ft, Type_of (fn en) = Some ft -> length o = NumOut ft)
          ens outs.
Proof.
  revert w outs. induction ens as [|en ens IH]; intros w outs; simpl.
  - intros [= <- _]. constructor.
  - destruct (Call (fn en) (args en) w) as [[o|msg] w1] eqn:Hc; [|by intros [=]].
    destruct (run_entries ens w1) as [[rest|msg] w2] eqn:Hrest; [|by intros [=]].
    intros [= ? ?]. subst. constructor; [|by eapply IH].
    intros ft Hty. by eapply Call_NumOut.
Qed.

Lemma release_stage_run m l st :
  (forall g, g ∈ l ->
     exists t e, g = VMade t (Release e) /\
                 length (default [] (m !! e)) = NumOut t) ->
  mapM (fun g => call_made g [VParsed (Some (mkParsed m))]) l st =
  (Returned (map (release_output m) l),
   {| heap := heap st; world := world st;
      trace := trace st ++ map release_event l |}).
Proof.
  revert st. induction l as [|g l IH]; intros st Hl.
  - simpl. rewrite app_nil_r. by destruct st.
  - destruct (Hl g) as (t & e & -> & Hlen); [by left|].
    simpl. erewrite bind_eq.
    2:{ unfold call_made. erewrite bind_eq; [|apply fn2_lookup].
        cbn [entries]. rewrite Hlen, Nat.eqb_refl. reflexivity. }
    erewrite bind_eq; [|apply IH; intros g' Hg'; apply Hl; by right].
    unfold ret. simpl. by rewrite <- app_assoc.
Qed.

(** A whole pass over function constructors: what it computes when the
    constructors return, and that they did return when the pass did. *)
Lemma pass_run h fs argv cs st :
  Forall (fun c => Kind_of c = Func) cs ->
  host_ok h ->
  let es := (alloc_all cs (heap st)).1 in
  let es' := shuffle h es in
  exists h2,
    Forall2 (fun c e => h2 !! e = Some {| fn := c; args := captured_args h c |})
            cs es /\
    (forall ens outs w3,
       Forall2 (fun e en => h2 !! e = Some en) es' ens ->
       run_entries ens (world st) = (Returned outs, w3) ->
       register_and_run h fs argv cs st =
       pass_outcome h fs argv cs es es' h2 (trace st) ens outs w3) /\
    (forall r st',
       register_and_run h fs argv cs st = (Returned r, st') ->
       exists ens outs w3,
         Forall2 (fun e en => h2 !! e = Some en) es' ens /\
         run_entries ens (world st) = (Returned outs, w3)).
Proof.
  intros Hcs [Hshuffle Hdemand] es es'.
  set (st1 := {| heap := (alloc_all cs (heap st)).2;
                 world := world st; trace := trace st |}).
  assert (Hnd : NoDup es) by apply alloc_all_NoDup.
  destruct (capture_stage_exact h cs es st1 Hcs Hnd) as (h2 & Hcap & Hfin & _).
  { eapply Forall2_impl; [apply alloc_all_Forall2|]. simpl. eauto. }
  set (st2 := {| heap := h2; world := world st;
                 trace := trace st ++ zip_with (capture_event h) cs es |}).
  assert (Heq : register_and_run h fs argv cs st =
    bind (parse fs argv {| Entries := es' |})
      (fun x => match x with
                | (res, Some err) => ret (inl err)
                | (res, None) =>
                    bind (mapM (fun g => call_made g [VParsed res])
                            (demand h (zip_with release_provider cs es)))
                         (fun outs => ret (inr outs))
                end) st2).
  { unfold register_and_run.
    erewrite bind_eq; [|by apply Provide_functions].
    unfold fx_New. cbn [flat_map option_errors option_provides].
    rewrite !app_nil_r, pairs_no_errors.
    unfold resolve. rewrite pairs_captures, pairs_releases by done.
    fold es st1. erewrite bind_eq; [|exact Hcap].
    rewrite group_entries_results. fold es'. simpl world. fold st2.
    reflexivity. }
  exists h2. split; [done|]. split.
  - intros ens outs w3 Hall Hrun. rewrite Heq.
    pose proof (parse_loop_run es' ens (mkParsed ∅) st2 outs w3 Hall Hrun) as Hloop.
    pose proof (parse_after_loop fs argv {| Entries := es' |} st2 _ _ Hloop) as Hparse.
    cbn [entries world heap trace] in Hparse.
    assert (Hrel : forall st3,
      mapM (fun g => call_made g [VParsed (Some (mkParsed (store_outputs ∅ es' outs)))])
           (demand h (zip_with release_provider cs es)) st3 =
      (Returned (map (release_output (store_outputs ∅ es' outs))
                     (demand h (zip_with release_provider cs es))),
       {| heap := heap st3; world := world st3;
          trace := trace st3 ++ map release_event
                     (demand h (zip_with release_provider cs es)) |})).
    { intros st3. apply release_stage_run. intros g Hg.
      apply Hdemand, elem_of_lookup_zip_with in Hg as (i & c & e & -> & Hc & He).
      assert (Hfc : Kind_of c = Func).
      { rewrite Forall_forall in Hcs. apply Hcs. by eapply list_elem_of_lookup_2. }
      destruct (func_has_type c Hfc) as (ins & os & va & Hty).
      unfold release_provider. rewrite Hty.
      eexists _, e. split; [reflexivity|].
      assert (Hin : e ∈ es').
      { unfold es'. rewrite (Hshuffle es). by eapply list_elem_of_lookup_2. }
      apply list_elem_of_lookup in Hin as [j Hj].
      destruct (Forall2_lookup_l _ _ _ _ _ Hall Hj) as (en & Hen & Hh2).
      pose proof (Forall2_lookup_lr _ _ _ _ _ _ Hfin Hc He) as Hh2'.
      simpl in Hh2, Hh2'. rewrite Hh2 in Hh2'. injection Hh2' as ->.
      pose proof (run_entries_NumOut _ _ _ _ Hrun) as Hlens.
      destruct (Forall2_lookup_l _ _ _ _ _ Hlens Hen) as (o & Ho & Hlen).
      rewrite (store_outputs_lookup ∅ es' outs j e o);
        [|unfold es'; by rewrite (Hshuffle es)|done|done].
      simpl. rewrite (Hlen _ Hty). unfold FuncOf, NumOut.
      by rewrite length_map, length_seq. }
    unfold pass_outcome, bind. rewrite Hparse.
    destruct (fs_Parsed fs w3).
    + rewrite Hrel. unfold ret. subst st2. simpl. by rewrite <- !app_assoc.
    + cbn zeta. destruct (fs_Parse fs argv w3) as [[err|] w4]; cbn [fst snd].
      * unfold ret. subst st2. simpl. by rewrite <- !app_assoc.
      * rewrite Hrel. unfold ret. subst st2. simpl. by rewrite <- !app_assoc.
  - intros r st' Hrun. rewrite Heq in Hrun.
    apply bind_Returned in Hrun as (x & st3 & Hparse & _).
    destruct (parse_Returned _ _ _ _ _ _ Hparse) as (res & st2' & Hloop).
    destruct (parse_loop_inv _ _ _ _ _ Hloop) as (ens & outs & Hall & Hrun).
    by exists ens, outs, (world st2').
Qed.

Lemma keeps_world_fn1 e received : keeps_world (fn1 e received).
Proof.
  intros st. unfold fn1, bind, set_args. by destruct (heap st !! e).
Qed.

Lemma keeps_world_fn2 e received : keeps_world (fn2 e received).
Proof.
  intros st. unfold fn2. destruct (negb _); [done|].
  unfold bind, typeAssert.
  destruct (nth 0 received VNil) as [| | | | | | | |[res|]]; done.
Qed.

Lemma constructor_runs_captures h e cs es :
  constructor_runs e (zip_with (capture_event h) cs es) = 0.
Proof.
  unfold constructor_runs.
  revert es. induction cs as [|c cs IH]; intros [|e' es]; simpl; auto.
Qed.

Lemma constructor_runs_releases e l :
  constructor_runs e (map release_event l) = 0.
Proof.
  unfold constructor_runs. induction l as [|g l IH]; [done|].
  simpl. by destruct g as [| | | | | |t [e'|e']| |].
Qed.

Lemma pass_outcome_shape h fs argv cs es es' h2 tr ens outs w3 :
  exists acts rels,
    heap (pass_outcome h fs argv cs es es' h2 tr ens outs w3).2 = h2 /\
    trace (pass_outcome h fs argv cs es es' h2 tr ens outs w3).2 =
      tr ++ zip_with (capture_event h) cs es
         ++ (zip_with constructor_event es' ens ++ acts) ++ rels /\
    (forall e, constructor_runs e acts = 0) /\
    (forall e, constructor_runs e rels = 0) /\
    (acts = [] \/ acts = [EvAction fs argv]) /\
    world (pass_outcome h fs argv cs es es' h2 tr ens outs w3).2 =
      (if fs_Parsed fs w3 then w3 else (fs_Parse fs argv w3).2).
Proof.
  unfold pass_outcome. destruct (fs_Parsed fs w3).
  - exists [], (map release_event (demand h (zip_with release_provider cs es))).
    simpl. rewrite app_nil_r, <- !app_assoc.
    split; [done|]. split; [done|]. split; [done|].
    split; [intros e; apply constructor_runs_releases|]. split; [by left|done].
  - destruct (fs_Parse fs argv w3) as [[err|] w4].
    + exists [EvAction fs argv], []. simpl. rewrite app_nil_r, <- !app_assoc.
      split; [done|]. split; [done|]. split; [done|]. split; [done|].
      split; [by right|done].
    + exists [EvAction fs argv],
             (map release_event (demand h (zip_with release_provider cs es))).
      simpl. rewrite <- !app_assoc.
      split; [done|]. split; [done|]. split; [done|].
      split; [intros e; apply constructor_runs_releases|].
      split; [by right|done].
Qed.

(** ** Independent constructors in any order *)

Lemma independent_Permutation ens ens' :
  ens ≡ₚ ens' -> independent ens -> independent ens'.
Proof.
  intros Hp Hind a b Ha Hb. apply Hind; by rewrite Hp.
Qed.

Lemma independent_tail en ens : independent (en :: ens) -> independent ens.
Proof. intros Hind a b Ha Hb. apply Hind; by right. Qed.

Lemma run_entries_Permutation ens ens' :
  ens ≡ₚ ens' ->
  independent ens ->
  forall w outs w',
    run_entries ens w = (Returned outs, w') ->
    exists outs',
      run_entries ens' w = (Returned outs', w') /\
      zip ens outs ≡ₚ zip ens' outs'.
Proof.
  induction 1 as [|x l l' Hp IH|x y l|l l' l'' Hp1 IH1 Hp2 IH2];
    intros Hind w outs w' Hrun.
  - exists outs. done.
  - simpl in Hrun.
    destruct (Call (fn x) (args x) w) as [[o|msg] w1] eqn:Hc; [|done].
    destruct (run_entries l w1) as [[rest|msg] w2] eqn:Hrest; [|done].
    injection Hrun as <- <-.
    destruct (IH (independent_tail _ _ Hind) w1 rest w2 Hrest) as (rest' & Hrun' & Hz).
    exists (o :: rest'). simpl. rewrite Hc, Hrun'. split; [done|].
    by constructor.
  - simpl in Hrun.
    destruct (Call (fn y) (args y) w) as [[oy|msg] w1] eqn:Hy; [|done].
    destruct (Call (fn x) (args x) w1) as [[ox|msg] w2] eqn:Hx; [|done].
    destruct (run_entries l w2) as [[rest|msg] w3] eqn:Hrest; [|done].
    injection Hrun as <- <-.
    destruct (Hind y x) as [->|Hcomm]; [by left|right; by left| |].
    { exists (oy :: ox :: rest). simpl. by rewrite Hy, Hx, Hrest. }
    specialize (Hcomm w). rewrite Hy, Hx in Hcomm.
    destruct (Call (fn x) (args x) w) as [rx wx] eqn:Hx'.
    destruct (Call (fn y) (args y) wx) as [ry wxy] eqn:Hy'.
    destruct Hcomm as (<- & <- & <-).
    exists (ox :: oy :: rest). simpl. rewrite Hx', Hy', Hrest.
    split; [done|]. apply perm_swap.
  - destruct (IH1 Hind w outs w' Hrun) as (outs1 & Hrun1 & Hz1).
    destruct (IH2 (independent_Permutation _ _ Hp1 Hind) w outs1 w' Hrun1)
      as (outs2 & Hrun2 & Hz2).
    exists outs2. split; [done|]. by etrans.
Qed.

Lemma entries_at h2 es ens :
  Forall2 (fun e en => h2 !! e = Some en) es ens ->
  ens = entry_at h2 <$> es.
Proof.
  induction 1 as [|e en es ens He Hall IH]; [done|].
  rewrite fmap_cons, <- IH. unfold entry_at. by rewrite He.
Qed.

Lemma entries_at_exist h2 es :
  (forall e, e ∈ es -> is_Some (h2 !! e)) ->
  Forall2 (fun e en => h2 !! e = Some en) es (entry_at h2 <$> es).
Proof.
  induction es as [|e es IH]; intros Hlive; [constructor|].
  simpl. constructor.
  - destruct (Hlive e) as [en Hen]; [by left|].
    unfold entry_at. by rewrite Hen.
  - apply IH. intros e' He'. apply Hlive. by right.
Qed.

Lemma captured_at h h2 cs es :
  Forall2 (fun c e => h2 !! e = Some (captured h c)) cs es ->
  captured h <$> cs = entry_at h2 <$> es.
Proof.
  induction 1 as [|c e cs es He Hall IH]; [done|].
  rewrite !fmap_cons, IH. unfold entry_at. by rewrite He.
Qed.

Lemma zip_store_outputs (G : ptr -> entry) es outs :
  NoDup es -> length outs = length es ->
  zip (G <$> es) outs =
  (fun e => (G e, default [] (store_outputs ∅ es outs !! e))) <$> es.
Proof.
  intros Hnd Hlen. apply list_eq. intros j.
  rewrite lookup_zip_with, !list_lookup_fmap.
  destruct (es !! j) as [e|] eqn:He; simpl; [|done].
  destruct (lookup_lt_is_Some_2 outs j) as [o Ho].
  { rewrite Hlen. by eapply lookup_lt_Some. }
  rewrite Ho. simpl.
  by rewrite (store_outputs_lookup ∅ es outs j e o).
Qed.

Lemma zip_release_outputs h h2 m cs es :
  Forall (fun c => Kind_of c = Func) cs ->
  Forall2 (fun c e => h2 !! e = Some (captured h c)) cs es ->
  zip cs (map (release_output m) (zip_with release_provider cs es)) =
  (fun e => (fn (entry_at h2 e), default [] (m !! e))) <$> es.
Proof.
  intros Hcs Hall. induction Hall as [|c e cs es He Hall IH]; [done|].
  apply Forall_cons in Hcs as [Hc Hcs].
  destruct (func_has_type c Hc) as (ins & outs & va & Hty).
  simpl. rewrite IH by done. unfold entry_at at 2. rewrite He. simpl.
  unfold release_provider at 1. by rewrite Hty.
Qed.

(** What the release stage hands out, constructor by constructor, is the
    barrier's record of the calls, up to order. *)
Lemma pass_outputs h (h2 : gmap ptr entry) cs es es' ens outs :
  Forall (fun c => Kind_of c = Func) cs ->
  NoDup es -> es' ≡ₚ es ->
  Forall2 (fun c e => h2 !! e = Some (captured h c)) cs es ->
  Forall2 (fun e en => h2 !! e = Some en) es' ens ->
  length outs = length ens ->
  ens ≡ₚ captured h <$> cs /\
  zip cs (map (release_output (store_outputs ∅ es' outs))
              (zip_with release_provider cs es))
  ≡ₚ (fun eo => (fn eo.1, eo.2)) <$> zip ens outs.
Proof.
  intros Hcs Hnd Hp Hfin Hall Hlen.
  rewrite (entries_at _ _ _ Hall), (captured_at _ _ _ _ Hfin).
  split; [by rewrite Hp|].
  rewrite (zip_release_outputs h h2) by done.
  rewrite zip_store_outputs.
  - rewrite <- list_fmap_compose. by rewrite Hp.
  - by rewrite Hp.
  - rewrite Hlen. symmetry. by eapply Forall2_length.
Qed.

(** C1: in a resolution pass that reaches the barrier, over any number
    of function constructors, the body of each constructor is executed
    exactly once: the world the pass leaves is the one that calling the
    captured entries one after the other, each once and in the order
    the barrier meets them, leaves ([fs.Parse] apart).  The calls happen
    in the barrier, on the arguments that the capture stage of the entry
    stored before; the capture-stage and release-stage closures run no
    constructor and leave the world alone. *)
Theorem constructor_runs_exactly_once h fs argv cs st r st' :
  Forall (fun c => Kind_of c = Func) cs ->
  host_ok h ->
  demand h (zip_with release_provider cs (alloc_all cs (heap st)).1) ≠ [] ->
  register_and_run h fs argv cs st = (Returned r, st') ->
  exists es ens outs w3 captures barrier releases acts,
    length es = length cs /\ NoDup es /\
    ens ≡ₚ captured h <$> cs /\
    Forall2 (fun e en => heap st' !! e = Some en) (shuffle h es) ens /\
    run_entries ens (world st) = (Returned outs, w3) /\
    world st' = (if fs_Parsed fs w3 then w3 else (fs_Parse fs argv w3).2) /\
    new_events (register_and_run h fs argv cs) st
      = captures ++ barrier ++ releases /\
    barrier = zip_with constructor_event (shuffle h es) ens ++ acts /\
    (acts = [] \/ acts = [EvAction fs argv]) /\
    (forall i c e, cs !! i = Some c -> es !! i = Some e ->
       heap st' !! e = Some {| fn := c; args := captured_args h c |} /\
       EvCapture e (captured_args h c) ∈ captures /\
       EvConstructor e (captured_args h c) ∈ barrier /\
       constructor_runs e captures = 0 /\
       constructor_runs e barrier = 1 /\
       constructor_runs e releases = 0 /\
       constructor_runs e (new_events (register_and_run h fs argv cs) st) = 1) /\
    (forall e received,
       bounded is_constructor_event 0 (fn1 e received) /\
       keeps_world (fn1 e received) /\
       bounded is_constructor_event 0 (fn2 e received) /\
       keeps_world (fn2 e received)).
Proof.
  intros Hcs Hok _ Hrun.
  destruct (pass_run h fs argv cs st Hcs Hok) as (h2 & Hfin & Hfwd & Hbwd).
  destruct (Hbwd r st' Hrun) as (ens & outs & w3 & Hall & Hruns).
  specialize (Hfwd ens outs w3 Hall Hruns).
  destruct Hok as [Hshuffle Hdemand].
  set (es := (alloc_all cs (heap st)).1) in *.
  set (es' := shuffle h es) in *.
  destruct (pass_outcome_shape h fs argv cs es es' h2 (trace st) ens outs w3)
    as (acts & rels & Hheap & Htrace & Hacts & Hrels & Hact & Hworld).
  rewrite <- Hfwd in Hheap, Htrace, Hworld.
  rewrite Hrun in Hheap, Hworld. simpl in Hheap, Hworld.
  assert (Hnd : NoDup es) by apply alloc_all_NoDup.
  assert (Hnd' : NoDup es') by (unfold es'; by rewrite (Hshuffle es)).
  assert (Hnew : new_events (register_and_run h fs argv cs) st =
                 zip_with (capture_event h) cs es
                 ++ (zip_with constructor_event es' ens ++ acts) ++ rels).
  { unfold new_events. by rewrite Htrace, drop_app_length. }
  destruct (pass_outputs h h2 cs es es' ens outs Hcs Hnd (Hshuffle es) Hfin Hall
              (run_entries_length _ _ _ _ Hruns)) as [Hens _].
  exists es, ens, outs, w3, (zip_with (capture_event h) cs es),
         (zip_with constructor_event es' ens ++ acts), rels, acts.
  split; [apply alloc_all_length|]. split; [done|]. split; [done|].
  split; [by rewrite Hheap|]. split; [done|]. split; [done|].
  split; [done|]. split; [done|]. split; [done|].
  split.
  - intros i c e Hc He.
    pose proof (Forall2_lookup_lr _ _ _ _ _ _ Hfin Hc He) as Hh2. simpl in Hh2.
    assert (Hin : e ∈ es').
    { unfold es'. rewrite (Hshuffle es). by eapply list_elem_of_lookup_2. }
    assert (Hone : constructor_runs e (zip_with constructor_event es' ens ++ acts) = 1).
    { rewrite constructor_runs_app, Hacts, Nat.add_0_r.
      apply constructor_runs_once; [done|by eapply Forall2_length|done]. }
    split; [by rewrite Hheap|].
    split.
    { apply elem_of_lookup_zip_with. by exists i, c, e. }
    split.
    { apply elem_of_app. left.
      apply list_elem_of_lookup in Hin as [j Hj].
      destruct (Forall2_lookup_l _ _ _ _ _ Hall Hj) as (en & Hen & Hh2').
      simpl in Hh2'. rewrite Hh2 in Hh2'. injection Hh2' as <-.
      apply elem_of_lookup_zip_with.
      exists j, e, {| fn := c; args := captured_args h c |}.
      split; [done|]. by split. }
    split; [apply constructor_runs_captures|].
    split; [done|]. split; [done|].
    rewrite Hnew, !constructor_runs_app, constructor_runs_captures, Hrels.
    rewrite constructor_runs_app in Hone. lia.
  - intros e received.
    split; [by apply bounded_fn1|]. split; [apply keeps_world_fn1|].
    split; [by apply bounded_fn2|apply keeps_world_fn2].
Qed.

Lemma captured_args_supply h h' c :
  (forall t, supply h t = supply h' t) ->
  captured_args h c = captured_args h' c.
Proof.
  intros Hs. unfold captured_args, build_args.
  destruct (Type_of c) as [ft|]; [|done].
  apply map_ext. intros i. apply Hs.
Qed.

Lemma pass_outcome_inr h fs argv cs es es' h2 tr ens outs w3 finals st' :
  pass_outcome h fs argv cs es es' h2 tr ens outs w3 = (Returned (inr finals), st') ->
  finals = map (release_output (store_outputs ∅ es' outs))
               (demand h (zip_with release_provider cs es)) /\
  (fs_Parsed fs w3 = true /\ world st' = w3 \/
   fs_Parsed fs w3 = false /\ fs_Parse fs argv w3 = (None, world st')).
Proof.
  unfold pass_outcome. destruct (fs_Parsed fs w3).
  - intros [= <- <-]. split; [done|]. by left.
  - destruct (fs_Parse fs argv w3) as [[err|] w4]; [done|].
    intros [= <- <-]. split; [done|]. by right.
Qed.

(** C9: when the constructors are independent, registering them in
    another order, and letting the barrier meet the entries in another
    order, gives every constructor the same release-stage output and
    leaves the same world. *)
Theorem registration_order_is_irrelevant
    h h' fs argv cs cs' st finals st1 :
  cs ≡ₚ cs' ->
  Forall (fun c => Kind_of c = Func) cs ->
  host_ok h -> host_ok h' ->
  (forall t, supply h t = supply h' t) ->
  (forall l, demand h l = l) -> (forall l, demand h' l = l) ->
  independent (captured h <$> cs) ->
  register_and_run h fs argv cs st = (Returned (inr finals), st1) ->
  exists finals' st1',
    register_and_run h' fs argv cs' st = (Returned (inr finals'), st1') /\
    world st1' = world st1 /\
    zip cs finals ≡ₚ zip cs' finals'.
Proof.
  intros Hp Hcs Hok Hok' Hsupply Hdem Hdem' Hind Hrun.
  assert (Hcs' : Forall (fun c => Kind_of c = Func) cs') by (by rewrite <- Hp).
  (* the given pass *)
  destruct (pass_run h fs argv cs st Hcs Hok) as (h2 & Hfin & Hfwd & Hbwd).
  destruct (Hbwd _ _ Hrun) as (ens & outs & w3 & Hall & Hruns).
  specialize (Hfwd ens outs w3 Hall Hruns). rewrite Hrun in Hfwd.
  symmetry in Hfwd. apply pass_outcome_inr in Hfwd as [-> Hbranch].
  rewrite Hdem.
  destruct (pass_outputs h h2 cs _ _ ens outs Hcs
              (alloc_all_NoDup cs (heap st)) (proj1 Hok _) Hfin Hall
              (run_entries_length _ _ _ _ Hruns)) as [Hens Hzip].
  (* the pass in the other order *)
  destruct (pass_run h' fs argv cs' st Hcs' Hok') as (h2' & Hfin' & Hfwd' & _).
  set (es2 := (alloc_all cs' (heap st)).1) in *.
  set (es2' := shuffle h' es2) in *.
  assert (Hall' : Forall2 (fun e en => h2' !! e = Some en) es2'
                          (entry_at h2' <$> es2')).
  { apply entries_at_exist. intros e He.
    unfold es2' in He. rewrite (proj1 Hok' es2) in He.
    apply list_elem_of_lookup in He as [i Hi].
    destruct (Forall2_lookup_r _ _ _ _ _ Hfin' Hi) as (c & _ & Hc). eauto. }
  assert (Hens' : entry_at h2' <$> es2' ≡ₚ captured h <$> cs).
  { rewrite Hp.
    replace (captured h <$> cs') with (captured h' <$> cs').
    - rewrite (captured_at h' h2' cs' es2 Hfin').
      unfold es2'. by rewrite (proj1 Hok' es2).
    - apply list_fmap_ext. intros i c _. unfold captured.
      by rewrite (captured_args_supply h h' c Hsupply). }
  assert (Hperm : ens ≡ₚ entry_at h2' <$> es2') by (by rewrite Hens, Hens').
  destruct (run_entries_Permutation _ _ Hperm
              (independent_Permutation _ _ (symmetry Hens) Hind)
              _ _ _ Hruns) as (outs' & Hruns' & Hzips).
  specialize (Hfwd' _ outs' w3 Hall' Hruns').
  destruct (pass_outputs h' h2' cs' es2 es2' _ outs' Hcs'
              (alloc_all_NoDup cs' (heap st)) (proj1 Hok' _) Hfin' Hall'
              (run_entries_length _ _ _ _ Hruns')) as [_ Hzip'].
  unfold pass_outcome in Hfwd'. rewrite Hdem' in Hfwd'.
  assert (Hfinal : zip cs
            (map (release_output (store_outputs ∅ (shuffle h (alloc_all cs (heap st)).1) outs))
                 (zip_with release_provider cs (alloc_all cs (heap st)).1))
          ≡ₚ zip cs'
            (map (release_output (store_outputs ∅ es2' outs'))
                 (zip_with release_provider cs' es2))).
  { rewrite Hzip, Hzip'. by rewrite Hzips. }
  rewrite Hfwd'. destruct Hbranch as [[Hparsed Hw]|[Hparsed Hparse]].
  - rewrite Hparsed. eexists _, _. split; [reflexivity|]. by split.
  - rewrite Hparsed, Hparse. eexists _, _. split; [reflexivity|]. by split.
Qed.

End Properties.

(** * The properties on the demonstration runtime *)

Lemma Provide_stops_at_first_non_function_witness :
  exists provided st',
    Provide [Demo.ctorA] Demo.st0 = (Returned (FxOptions provided), st') /\
    Provide [Demo.ctorA; VInt 3; Demo.ctorB] Demo.st0 =
      (Returned (FxOptions
         (provided ++ [FxError "flagfx: Provide must be used with functions"])),
       st') /\
    length provided = 1.
Proof.
  destruct (Provide_stops_at_first_non_function
              [Demo.ctorA] (VInt 3) [Demo.ctorB] Demo.st0)
    as (provided & st' & H1 & H2 & H3 & _).
  - repeat constructor.
  - discriminate.
  - exists provided, st'. split; [exact H1|]. split; [exact H2|exact H3].
Defined.

Lemma non_function_is_configuration_error_witness :
  exists opts st',
    Provide [Demo.ctorA; VInt 3; Demo.ctorB] Demo.st0
      = (Returned (FxOptions opts), st') /\
    FxError "flagfx: Provide must be used with functions" ∈ opts /\
    exists err,
      fx_New Demo.h0 0 ["0"] [FxOptions opts] Demo.st0 = (Returned (inl err), Demo.st0).
Proof.
  destruct (non_function_is_configuration_error Demo.h0 0 ["0"]
              [Demo.ctorA; VInt 3; Demo.ctorB] (VInt 3) Demo.st0)
    as (opts & st' & H1 & H2 & _ & H4).
  - right. left.
  - discriminate.
  - exists opts, st'. split; [exact H1|]. split; [exact H2|].
    exact (H4 [] [] Demo.st0).
Defined.

Lemma capture_stage_provider_witness :
  exists e t1 t2 opts st',
    Provide [Demo.ctorA; Demo.ctorV] Demo.st0 = (Returned (FxOptions opts), st') /\
    opts !! 1 = Some (FxProvide [VMade t1 (Capture e); VMade t2 (Release e)]) /\
    NumIn t1 = 2 /\ IsVariadic t1 = false /\ NumOut t1 = 1.
Proof.
  destruct (capture_stage_provider [Demo.ctorA] Demo.ctorV [] Demo.st0)
    as (ft & e & t1 & t2 & opts & st' & Hty & HP & Hopt & _ & Hn & _ & Hv & Ho & _).
  - repeat constructor.
  - reflexivity.
  - injection Hty as <-. exists e, t1, t2, opts, st'.
    split; [exact HP|]. split; [exact Hopt|]. split; [exact Hn|].
    split; [exact Hv|exact Ho].
Defined.

Lemma release_stage_missing_entry_witness :
  call_made (MakeFunc (FuncOf parsedPtrTypes [Demo.flagsT "A"] false) (Release 0))
            [VParsed (Some (mkParsed ∅))] Demo.st0 =
  (Panicked "reflect: wrong return count from function created by MakeFunc",
   {| heap := ∅; world := Demo.w0; trace := [EvRelease 0] |}).
Proof.
  destruct (release_stage_missing_entry 0
              (FuncOf parsedPtrTypes [Demo.flagsT "A"] false)
              (mkParsed ∅) Demo.st0) as (_ & H & _).
  - reflexivity.
  - exact H.
Defined.

(** The capture-stage provider that [Provide] makes for the variadic
    constructor [func(n int, names ...string) *V] has the type
    [func(int, []string) result]: it is not variadic, so its input
    signature is not the constructor's. *)
Lemma variadic_capture_signature_differs :
  Kind_of Demo.ctorV = Func /\
  Type_of Demo.ctorV = Some (TFunc [TInt; TSlice TString] [Demo.flagsT "V"] true) /\
  (Provide [Demo.ctorV] Demo.st0).1 =
    Returned (FxOptions [FxProvide
      [VMade (FuncOf [TInt; TSlice TString] resultTypes false) (Capture 0);
       VMade (FuncOf parsedPtrTypes [Demo.flagsT "V"] false) (Release 0)]]) /\
  ~ same_input_signature
      (TFunc [TInt; TSlice TString] [Demo.flagsT "V"] true)
      (FuncOf [TInt; TSlice TString] resultTypes false).
Proof.
  split; [reflexivity|]. split; [reflexivity|].
  split; [vm_compute; reflexivity|].
  intros (_ & _ & Hv). discriminate Hv.
Qed.

(** The release-stage provider that [Provide] makes for a constructor
    without outputs returns, without a panic, when its entry is missing
    from the map. *)
Lemma missing_entry_returns_silently :
  (Provide [Demo.ctorU] Demo.st0).1 =
    Returned (FxOptions [FxProvide
      [VMade (FuncOf [] resultTypes false) (Capture 0);
       VMade (FuncOf parsedPtrTypes [] false) (Release 0)]]) /\
  entries (mkParsed ∅) !! 0 = None /\
  (call_made (VMade (FuncOf parsedPtrTypes [] false) (Release 0))
             [VParsed (Some (mkParsed ∅))] Demo.st0).1 = Returned [].
Proof.
  split; [vm_compute; reflexivity|].
  split; [apply lookup_empty|].
  vm_compute. reflexivity.
Qed.

Lemma demo_host_ok : host_ok Demo.h0.
Proof.
  split.
  - intros l. symmetry. apply Permutation_rev.
  - intros l. reflexivity.
Qed.

Lemma constructor_runs_exactly_once_witness :
  exists es ens outs w3,
    length es = 2 /\ NoDup es /\
    ens ≡ₚ captured Demo.h0 <$> [Demo.ctorA; Demo.ctorB] /\
    run_entries ens Demo.w0 = (Returned outs, w3) /\
    forall i c e, [Demo.ctorA; Demo.ctorB] !! i = Some c -> es !! i = Some e ->
      constructor_runs e
        (new_events (register_and_run Demo.h0 0 ["0"] [Demo.ctorA; Demo.ctorB])
                    Demo.st0) = 1.
Proof.
  edestruct (constructor_runs_exactly_once Demo.h0 0 ["0"]
               [Demo.ctorA; Demo.ctorB] Demo.st0)
    as (es & ens & outs & w3 & captures & barrier & releases & acts
        & Hlen & Hnd & Hens & _ & Hrun & _ & _ & _ & _ & Hall & _).
  - repeat constructor.
  - exact demo_host_ok.
  - intros H. apply (f_equal length) in H. vm_compute in H. discriminate H.
  - apply (returned_eta (inl "")). vm_compute. reflexivity.
  - exists es, ens, outs, w3.
    split; [exact Hlen|]. split; [exact Hnd|]. split; [exact Hens|].
    split; [exact Hrun|].
    intros i c e Hc He. apply (Hall i c e Hc He).
Defined.

Lemma release_returns_constructor_outputs_witness :
  exists res st' res1 st1 outs w1,
    parse 0 ["0"] {| Entries := [1; 0] |} Demo.st_captured
      = (Returned (Some res, None), st') /\
    parse_loop [1] (mkParsed ∅) Demo.st_captured = (Returned res1, st1) /\
    Call Demo.ctorA [Demo.fs_arg] (world st1) = (Returned outs, w1) /\
    (call_made (MakeFunc (FuncOf parsedPtrTypes [Demo.flagsT "A"] false) (Release 0))
               [VParsed (Some res)] Demo.st0).1 = Returned outs.
Proof.
  assert (H : match (parse 0 ["0"] {| Entries := [1; 0] |} Demo.st_captured).1 with
              | Returned (Some _, None) => true
              | _ => false
              end = true) by (vm_compute; reflexivity).
  destruct (parse 0 ["0"] {| Entries := [1; 0] |} Demo.st_captured)
    as [[[[res|] [err|]]|msg] st'] eqn:E; try discriminate H.
  destruct (release_returns_constructor_outputs 0 ["0"] [1] 0 []
              Demo.st_captured res st'
              {| fn := Demo.ctorA; args := [Demo.fs_arg] |}
              (TFunc [Demo.fsT] [Demo.flagsT "A"] false) Demo.st0)
    as (res1 & st1 & outs & w1 & H1 & H2 & H3).
  - apply not_elem_of_nil.
  - reflexivity.
  - reflexivity.
  - exact E.
  - exists res, st', res1, st1, outs, w1.
    split; [reflexivity|]. split; [exact H1|]. split; [exact H2|].
    exact (f_equal fst H3).
Defined.

Lemma action_failure_fails_barrier_witness :
  exists st3,
    resolve Demo.h0 0 ["5"] Demo.providers Demo.st_registered
      = (Returned (inl "flag provided but not defined"), st3) /\
    List.filter is_release_event
      (new_events (resolve Demo.h0 0 ["5"] Demo.providers) Demo.st_registered) = [].
Proof.
  pose (r1 := mapM (call_capture Demo.h0)
                (List.filter is_capture Demo.providers) Demo.st_registered).
  pose (r2 := parse_loop (shuffle Demo.h0 (group_entries (result_or [] r1)))
                (mkParsed ∅) r1.2).
  destruct (action_failure_fails_barrier Demo.h0 0 ["5"] Demo.providers
              Demo.st_registered (result_or [] r1) r1.2
              (result_or (mkParsed ∅) r2) r2.2
              "flag provided but not defined"
              (fs_Parse 0 ["5"] (world r2.2)).2)
    as (_ & Hres & Hrel).
  - apply (returned_eta []). vm_compute. reflexivity.
  - apply (returned_eta (mkParsed ∅)). vm_compute. reflexivity.
  - vm_compute. reflexivity.
  - apply injective_projections; [vm_compute; reflexivity|reflexivity].
  - eexists. split; [exact Hres|exact Hrel].
Defined.

Lemma already_parsed_skips_action_witness :
  exists res st2,
    parse 0 ["9"] {| Entries := [0; 1] |} Demo.st_parsed
      = (Returned (Some res, None), st2) /\
    action_runs (new_events (parse 0 ["9"] {| Entries := [0; 1] |}) Demo.st_parsed) = 0.
Proof.
  pose (ens := [ {| fn := Demo.ctorA; args := [Demo.fs_arg] |};
                 {| fn := Demo.ctorB; args := [Demo.fs_arg] |} ]).
  pose (r := run_entries ens (world Demo.st_parsed)).
  destruct (already_parsed_skips_action 0 ["9"] [0; 1] ens
              (result_or [] r) r.2 Demo.st_parsed)
    as (res & st2 & Hparse & _ & Hact & _).
  - apply (bool_decide_unpack _). exact I.
  - repeat constructor.
  - apply (returned_eta []). vm_compute. reflexivity.
  - vm_compute. reflexivity.
  - exists res, st2. split; [exact Hparse|exact Hact].
Defined.

(** A flag set that is parsed before the barrier runs does not keep
    [parse] from calling [fs.Parse]: the constructor of the one entry
    replaces the flag set, [parse] asks [fs.Parsed()] afterwards, and
    calls [fs.Parse]. *)
Lemma parsed_before_the_barrier_is_not_enough :
  @fs_Parsed Overwrite.runtime 0 (world Overwrite.st_parsed) = true /\
  (@parse Overwrite.runtime 0 [] {| Entries := [0] |} Overwrite.st_parsed).1
    = Returned (Some (mkParsed {[0 := [VObj (TPtr (TStruct "T")) 0]]}), None) /\
  Overwrite.parse_calls
    (world (@parse Overwrite.runtime 0 [] {| Entries := [0] |}
              Overwrite.st_parsed).2) = 1 /\
  action_runs
    (new_events (@parse Overwrite.runtime 0 [] {| Entries := [0] |})
                Overwrite.st_parsed) = 1.
Proof.
  split; [reflexivity|]. split; [vm_compute; reflexivity|].
  split; vm_compute; reflexivity.
Qed.

Lemma demo_host_ok_1 : host_ok Demo.h1.
Proof. split; intros l; reflexivity. Qed.

Lemma demo_fresh_flag (x y : string) (D : gset string) :
  x ≠ y -> y ∉ D -> y ∉ {[x]} ∪ D.
Proof.
  intros Hne Hy [Hx%elem_of_singleton|HD]%elem_of_union; [by apply Hne|by apply Hy].
Qed.

Lemma demo_old_flag (x y : string) (D : gset string) : y ∈ D -> y ∈ {[x]} ∪ D.
Proof. intros Hy. apply elem_of_union. by right. Qed.

(** Two demonstration constructors that define different flags commute. *)
Lemma demo_commute i1 o1 v1 n1 a1 i2 o2 v2 n2 a2 :
  Demo.flag_name n1 ≠ Demo.flag_name n2 ->
  commute (RT := Demo.runtime)
          {| fn := VFunc i1 o1 v1 n1; args := a1 |}
          {| fn := VFunc i2 o2 v2 n2; args := a2 |}.
Proof.
  intros Hne w. simpl. unfold Demo.call.
  destruct (negb (length a1 =? length i1)), (negb (length a2 =? length i2));
    simpl; repeat (case_decide; simpl); try done.
  all: try (exfalso;
            match goal with
            | H : ?y ∉ {[?x]} ∪ ?D, H' : ?y ∈ ?D |- _ =>
                apply H, demo_old_flag, H'
            | H : ?y ∈ {[?x]} ∪ ?D, H' : ?y ∉ ?D |- _ =>
                revert H; apply demo_fresh_flag; [congruence|exact H']
            end).
  split; [done|]. split; [done|]. f_equal.
  by rewrite !(assoc_L (∪)), (comm_L (∪) {[Demo.flag_name n2]}).
Qed.

Lemma demo_independent :
  independent (RT := Demo.runtime) (captured Demo.h0 <$> [Demo.ctorA; Demo.ctorB]).
Proof.
  intros a b Ha Hb.
  apply elem_of_cons in Ha as [->|Ha]; [|apply list_elem_of_singleton in Ha as ->];
    (apply elem_of_cons in Hb as [->|Hb]; [|apply list_elem_of_singleton in Hb as ->]).
  - by left.
  - right. apply demo_commute. discriminate.
  - right. apply demo_commute. discriminate.
  - by left.
Qed.

Lemma registration_order_is_irrelevant_witness :
  exists finals finals' st1 st1',
    register_and_run Demo.h0 0 ["0"] [Demo.ctorA; Demo.ctorB] Demo.st0
      = (Returned (inr finals), st1) /\
    register_and_run Demo.h1 0 ["0"] [Demo.ctorB; Demo.ctorA] Demo.st0
      = (Returned (inr finals'), st1') /\
    world st1' = world st1 /\
    zip [Demo.ctorA; Demo.ctorB] finals ≡ₚ zip [Demo.ctorB; Demo.ctorA] finals'.
Proof.
  assert (H : match (register_and_run Demo.h0 0 ["0"]
                       [Demo.ctorA; Demo.ctorB] Demo.st0).1 with
              | Returned (inr _) => true
              | _ => false
              end = true) by (vm_compute; reflexivity).
  destruct (register_and_run Demo.h0 0 ["0"] [Demo.ctorA; Demo.ctorB] Demo.st0)
    as [[[err|finals]|msg] st1] eqn:E; try discriminate H.
  destruct (registration_order_is_irrelevant Demo.h0 Demo.h1 0 ["0"]
              [Demo.ctorA; Demo.ctorB] [Demo.ctorB; Demo.ctorA]
              Demo.st0 finals st1)
    as (finals' & st1' & Hrun & Hw & Hzip).
  - apply perm_swap.
  - repeat constructor.
  - exact demo_host_ok.
  - exact demo_host_ok_1.
  - reflexivity.
  - reflexivity.
  - reflexivity.
  - exact demo_independent.
  - exact E.
  - exists finals, finals', st1, st1'.
    split; [reflexivity|]. split; [exact Hrun|]. split; [exact Hw|exact Hzip].
Defined.

(** * Further properties of the package *)

Section Further.
Context `{RT : Runtime}.

Implicit Types (st : state) (e : ptr) (es : list ptr) (c : value)
  (cs : list value) (tr : list event).

(** ** The barrier *)

(** X2: on a flag set that is not parsed yet, [parse] is: call the
    constructors in the order of [Entries], then [fs.Parse] in the world
    they leave; the map it returns holds the outputs of the calls, and
    a parse error discards it. *)
Theorem parse_runs_action_in_final_world fs argv es ens outs w2 st :
  Forall2 (fun e en => heap st !! e = Some en) es ens ->
  run_entries ens (world st) = (Returned outs, w2) ->
  fs_Parsed fs w2 = false ->
  parse fs argv {| Entries := es |} st =
  (Returned (match (fs_Parse fs argv w2).1 with
             | Some err => (None, Some err)
             | None => (Some (mkParsed (store_outputs ∅ es outs)), None)
             end),
   {| heap := heap st;
      world := (fs_Parse fs argv w2).2;
      trace := trace st ++ zip_with constructor_event es ens
                        ++ [EvAction fs argv] |}).
Proof.
  intros Hall Hrun Hparsed.
  pose proof (parse_loop_run es ens (mkParsed ∅) st outs w2 Hall Hrun) as Hloop.
  rewrite (parse_after_loop fs argv {| Entries := es |} st _ _ Hloop).
  simpl. rewrite Hparsed. rewrite <- app_assoc.
  by destruct (fs_Parse fs argv w2) as [[err|] w3].
Qed.

(** X3: a constructor that panics takes the barrier down with it: the
    constructors behind it in [Entries] do not run and [fs.Parse] is not
    called. *)
Theorem constructor_panic_aborts_barrier
    fs argv pre e post st res1 st1 en msg w1 :
  parse_loop pre (mkParsed ∅) st = (Returned res1, st1) ->
  heap st !! e = Some en ->
  Call (fn en) (args en) (world st1) = (Panicked msg, w1) ->
  parse fs argv {| Entries := pre ++ e :: post |} st =
    (Panicked msg,
     {| heap := heap st; world := w1;
        trace := trace st1 ++ [EvConstructor e (args en)] |}) /\
  action_runs (new_events (parse fs argv {| Entries := pre ++ e :: post |}) st) = 0 /\
  forall e', e' ∉ pre -> e' ≠ e ->
    constructor_runs e'
      (new_events (parse fs argv {| Entries := pre ++ e :: post |}) st) = 0.
Proof.
  intros Hpre He Hcall.
  destruct (parse_loop_exact _ _ _ _ _ Hpre) as (ens & outs & Hall & _ & _ & Hst1).
  assert (Hheap : heap st1 = heap st) by (by rewrite Hst1).
  assert (Htrace : trace st1 = trace st ++ zip_with constructor_event pre ens)
    by (by rewrite Hst1).
  assert (Hparse : parse fs argv {| Entries := pre ++ e :: post |} st =
    (Panicked msg,
     {| heap := heap st; world := w1;
        trace := trace st1 ++ [EvConstructor e (args en)] |})).
  { unfold parse. apply bind_panic. simpl.
    rewrite parse_loop_app. erewrite bind_eq; [|exact Hpre].
    simpl. apply bind_panic.
    rewrite (call_constructor_eq e en st1) by (by rewrite Hheap).
    by rewrite Hcall, Hheap. }
  split; [done|].
  unfold new_events. rewrite Hparse. simpl.
  rewrite Htrace, <- app_assoc, drop_app_length.
  split.
  - unfold action_runs. rewrite List.filter_app. simpl. rewrite app_nil_r.
    apply length_zero_iff_nil.
    clear. revert ens. induction pre as [|x pre IH]; intros [|en ens]; simpl; auto.
  - intros e' Hpre' Hne. rewrite constructor_runs_app.
    rewrite constructor_runs_notin by done.
    unfold constructor_runs. simpl. by rewrite bool_decide_eq_false_2.
Qed.

Lemma parse_loop_keeps_heap es res st : heap (parse_loop es res st).2 = heap st.
Proof.
  revert res st. induction es as [|e es IH]; intros res st; [done|].
  simpl. unfold bind.
  destruct (call_constructor e st) as [[outs|msg] st1] eqn:Hc.
  - rewrite IH.
    unfold call_constructor, bind, deref in Hc.
    destruct (heap st !! e) as [en|]; [|discriminate].
    unfold log, on_world_may_panic in Hc. simpl in Hc.
    destruct (Call (fn en) (args en) (world st)). by injection Hc as _ <-.
  - simpl. unfold call_constructor, bind, deref in Hc.
    destruct (heap st !! e) as [en|]; [|by injection Hc as _ <-].
    unfold log, on_world_may_panic in Hc. simpl in Hc.
    destruct (Call (fn en) (args en) (world st)). by injection Hc as _ <-.
Qed.

(** X4: [parse] reads the entries and never writes them: whatever it
    does, returning or panicking, every entry keeps its constructor and
    its captured arguments. *)
Theorem parse_keeps_entries fs argv p st :
  heap (parse fs argv p st).2 = heap st.
Proof.
  pose proof (parse_loop_keeps_heap (Entries p) (mkParsed ∅) st) as Hloop.
  unfold parse, bind.
  destruct (parse_loop (Entries p) (mkParsed ∅) st) as [[res|msg] st2];
    simpl in Hloop; [|done].
  unfold on_world, log, ret. simpl.
  destruct (fs_Parsed fs (world st2)); simpl; [done|].
  by destruct (fs_Parse fs argv (world st2)) as [[err|] w3].
Qed.

Lemma store_outputs_is_Some m es outs e :
  length es = length outs ->
  is_Some (store_outputs m es outs !! e) <-> e ∈ es \/ is_Some (m !! e).
Proof.
  unfold store_outputs. revert m outs.
  induction es as [|e' es IH]; intros m [|o outs] Hlen; try done.
  - simpl. split; [by right|]. intros [Hin|?]; [by apply elem_of_nil in Hin|done].
  - simpl in *. rewrite IH by lia. rewrite elem_of_cons.
    destruct (decide (e' = e)) as [->|Hne].
    + rewrite lookup_insert_eq. split; [by left; left|by right].
    + rewrite lookup_insert_ne by done. split.
      * intros [?|?]; [left; by right|by right].
      * intros [[?|?]|?]; [congruence|by left|by right].
Qed.

(** X5: the map a successful [parse] returns has exactly the entries of
    [Entries] as its keys. *)
Theorem parsed_domain_is_entries fs argv p st res st' :
  parse fs argv p st = (Returned (Some res, None), st') ->
  forall e, is_Some (entries res !! e) <-> e ∈ Entries p.
Proof.
  intros Hparse e.
  destruct (parse_success _ _ _ _ _ _ Hparse) as (st2 & Hloop).
  destruct (parse_loop_exact _ _ _ _ _ Hloop) as (ens & outs & Hall & Hrun & -> & _).
  cbn [entries]. rewrite store_outputs_is_Some.
  - rewrite lookup_empty. split; [intros [?|[? ?]]; done|by left].
  - rewrite (run_entries_length _ _ _ _ Hrun). by eapply Forall2_length.
Qed.

Lemma constructor_runs_occurrences e es ens :
  length es = length ens ->
  constructor_runs e (zip_with constructor_event es ens)
  = length (filter (fun e' => e' = e) es).
Proof.
  revert ens. induction es as [|e' es IH]; intros [|en ens] Hlen; try done.
  simpl in Hlen.
  change (zip_with constructor_event (e' :: es) (en :: ens))
    with ([constructor_event e' en] ++ zip_with constructor_event es ens).
  rewrite constructor_runs_app, IH by lia.
  rewrite filter_cons. unfold constructor_runs. simpl.
  destruct (decide (e' = e)) as [->|Hne].
  - by rewrite bool_decide_eq_true_2.
  - by rewrite bool_decide_eq_false_2.
Qed.

(** X6: [parse] does not deduplicate: when it returns, with a [*parsed]
    or with an error, it has called the constructors of the entries of
    [Entries] one after the other, one call for every occurrence of an
    entry: the world it leaves is the one these calls leave ([fs.Parse]
    apart), and the trace counts a call of an entry as often as the
    entry occurs. *)
Theorem parse_runs_each_occurrence fs argv p st r st' :
  parse fs argv p st = (Returned r, st') ->
  exists ens outs w2,
    Forall2 (fun e en => heap st !! e = Some en) (Entries p) ens /\
    run_entries ens (world st) = (Returned outs, w2) /\
    world st' = (if fs_Parsed fs w2 then w2 else (fs_Parse fs argv w2).2) /\
    forall e,
      constructor_runs e (new_events (parse fs argv p) st)
      = length (filter (fun e' => e' = e) (Entries p)).
Proof.
  intros Hparse.
  destruct (parse_Returned _ _ _ _ _ _ Hparse) as (res & st2 & Hloop).
  destruct (parse_loop_exact _ _ _ _ _ Hloop) as (ens & outs & Hall & Hrun & _ & Hst2).
  exists ens, outs, (world st2). split; [done|]. split; [done|].
  pose proof (parse_after_loop fs argv p st res st2 Hloop) as Heq.
  assert (Htrace : trace st2 = trace st ++ zip_with constructor_event (Entries p) ens)
    by (by rewrite Hst2).
  pose proof (Forall2_length _ _ _ Hall) as Hlen.
  split.
  - rewrite Hparse in Heq. destruct (fs_Parsed fs (world st2)).
    + by injection Heq as _ ->.
    + simpl in Heq. destruct (fs_Parse fs argv (world st2)) as [[err|] w3];
        simpl in Heq; by injection Heq as _ ->.
  - intros e. unfold new_events. rewrite Heq.
    destruct (fs_Parsed fs (world st2)); simpl.
    + rewrite Htrace, drop_app_length. by apply constructor_runs_occurrences.
    + assert (Hgoal : constructor_runs e
          (drop (length (trace st)) (trace st2 ++ [EvAction fs argv]))
        = length (filter (fun e' => e' = e) (Entries p))).
      { rewrite Htrace, <- app_assoc, drop_app_length, constructor_runs_app.
        rewrite constructor_runs_occurrences by done.
        unfold constructor_runs. simpl. lia. }
      by destruct (fs_Parse fs argv (world st2)).1.
Qed.

(** ** Registration *)

(** X7: [Provide] on functions gives every constructor, also one that
    is passed twice, a new entry of its own with an empty [args] slot;
    the entries of earlier registrations are kept as they are, and the
    world is not touched. *)
Theorem Provide_allocates_fresh_entries cs st :
  Forall (fun c => Kind_of c = Func) cs ->
  exists es st',
    Provide cs st = (Returned (FxOptions (zip_with provide_pair cs es)), st') /\
    length es = length cs /\ NoDup es /\
    (forall e, e ∈ es -> heap st !! e = None) /\
    (forall e, e ∉ es -> heap st' !! e = heap st !! e) /\
    Forall2 (fun c e => heap st' !! e = Some {| fn := c; args := [] |}) cs es /\
    world st' = world st /\ trace st' = trace st.
Proof.
  intros Hcs. eexists _, _. split; [by apply Provide_functions|].
  pose proof (alloc_all_spec cs (heap st)) as Hspec.
  pose proof (alloc_all_Forall2 cs (heap st)) as Hall.
  pose proof (alloc_all_length cs (heap st)) as Hlen.
  destruct (alloc_all cs (heap st)) as [es h']. simpl in *.
  destruct Hspec as (Hnd & Hnew & Hold & _). done.
Qed.

Lemma alloc_all_app cs1 cs2 h :
  alloc_all (cs1 ++ cs2) h =
  ((alloc_all cs1 h).1 ++ (alloc_all cs2 (alloc_all cs1 h).2).1,
   (alloc_all cs2 (alloc_all cs1 h).2).2).
Proof.
  revert h. induction cs1 as [|c cs1 IH]; intros h; simpl.
  - by destruct (alloc_all cs2 h).
  - rewrite IH. by destruct (alloc_all cs1 _).
Qed.

(** X8: constructors spread over two calls of [Provide], as two modules
    do, make the same application as one call with all of them: the same
    entries, the same pass, the same result. *)
Theorem Provide_calls_compose h fs argv cs1 cs2 st :
  Forall (fun c => Kind_of c = Func) cs1 ->
  Forall (fun c => Kind_of c = Func) cs2 ->
  bind (Provide cs1)
       (fun o1 => bind (Provide cs2) (fun o2 => fx_New h fs argv [o1; o2])) st
  = register_and_run h fs argv (cs1 ++ cs2) st.
Proof.
  intros H1 H2. unfold register_and_run.
  erewrite bind_eq; [|by apply Provide_functions].
  erewrite bind_eq; [|by apply Provide_functions].
  erewrite (bind_eq (Provide (cs1 ++ cs2)));
    [|apply Provide_functions; by apply Forall_app].
  rewrite alloc_all_app. simpl.
  unfold fx_New. cbn [flat_map option_errors option_provides].
  rewrite !app_nil_r, !pairs_no_errors. simpl.
  rewrite zip_with_app by (by rewrite alloc_all_length).
  by rewrite flat_map_app.
Qed.

(** ** The two providers *)

(** X10: the [args] slot is not write-once: a second capture replaces
    what the first stored, the constructor stays, and the barrier calls
    the constructor on what was captured last. *)
Theorem last_capture_wins e a1 a2 st en :
  heap st !! e = Some en ->
  bind (fn1 e a1) (fun _ => bind (fn1 e a2) (fun _ => call_constructor e)) st =
  ((Call (fn en) a2 (world st)).1,
   {| heap := <[e := {| fn := fn en; args := a2 |}]> (heap st);
      world := (Call (fn en) a2 (world st)).2;
      trace := trace st ++ [EvCapture e a1; EvCapture e a2; EvConstructor e a2] |}).
Proof.
  intros He.
  erewrite bind_eq; [|by apply fn1_stores].
  erewrite bind_eq; [|apply fn1_stores; simpl; apply lookup_insert_eq].
  erewrite call_constructor_eq; [|simpl; apply lookup_insert_eq].
  simpl. rewrite insert_insert_eq, <- !app_assoc. done.
Qed.

(** X11: a release-stage closure only reads: in every case, a panic
    included, it leaves the entries and the world as they are, and what
    it returns depends on its arguments alone, not on when it is called. *)
Theorem release_is_read_only e given st :
  heap (fn2 e given st).2 = heap st /\
  world (fn2 e given st).2 = world st /\
  forall st2, (fn2 e given st2).1 = (fn2 e given st).1.
Proof.
  unfold fn2. destruct (negb (length given =? 1)); [done|].
  unfold bind, typeAssert.
  destruct (nth 0 given VNil) as [| | | | | | | |[res|]]; done.
Qed.

(** X12: the release-stage provider made for a function constructor
    takes one input, the [*parsed], is not variadic, and has the
    constructor's output types, one for one; it shares its entry with the
    capture-stage provider of the pair; called on a [*parsed] that holds
    outputs of that shape for the entry, it returns them unchanged. *)
Theorem release_stage_provider pre c post st :
  Forall (fun c => Kind_of c = Func) pre ->
  Kind_of c = Func ->
  exists ft e t1 t2 opts st',
    Type_of c = Some ft /\
    Provide (pre ++ c :: post) st = (Returned (FxOptions opts), st') /\
    opts !! length pre =
      Some (FxProvide [VMade t1 (Capture e); VMade t2 (Release e)]) /\
    NumIn t2 = 1 /\ In t2 0 = parsedPtrType /\ IsVariadic t2 = false /\
    NumOut t2 = NumOut ft /\
    (forall i, i < NumOut ft -> Out t2 i = Out ft i) /\
    forall res outs s,
      entries res !! e = Some outs ->
      length outs = NumOut ft ->
      call_made (VMade t2 (Release e)) [VParsed (Some res)] s =
      (Returned outs,
       {| heap := heap s; world := world s; trace := trace s ++ [EvRelease e] |}).
Proof.
  intros Hpre Hc.
  destruct (func_has_type c Hc) as (ins & outs & va & Hty).
  assert (Hall : Forall (fun c => Kind_of c = Func) (pre ++ [c])).
  { apply Forall_app. split; [done|by constructor]. }
  destruct (provide_pair_lookup (pre ++ [c]) (heap st) (length pre) c)
    as (e & He & Hp & Hh).
  { by rewrite lookup_app_r, Nat.sub_diag by lia. }
  destruct (Provide_loop_total post
              (zip_with provide_pair (pre ++ [c]) (alloc_all (pre ++ [c]) (heap st)).1)
              {| heap := (alloc_all (pre ++ [c]) (heap st)).2;
                 world := world st; trace := trace st |})
    as (more & st' & Hloop & _).
  exists (TFunc ins outs va), e.
  eexists _, _, _, st'. split; [done|].
  split.
  { unfold Provide. erewrite bind_eq; [reflexivity|].
    replace (pre ++ c :: post) with ((pre ++ [c]) ++ post)
      by (by rewrite <- app_assoc).
    rewrite Provide_loop_funcs by done. rewrite app_nil_l. exact Hloop. }
  split.
  { rewrite lookup_app_l.
    - rewrite Hp. unfold provide_pair, capture_provider, release_provider.
      rewrite Hty. reflexivity.
    - rewrite length_zip_with, alloc_all_length, length_app. simpl. lia. }
  rewrite outs_of_type. simpl.
  split; [done|]. split; [done|]. split; [done|]. split; [done|]. split; [done|].
  intros res os s Hres Hlen. unfold call_made.
  erewrite bind_eq; [|apply fn2_lookup].
  rewrite Hres. simpl. by rewrite Hlen, Nat.eqb_refl.
Qed.

End Further.

(** ** The further properties on the demonstration runtime *)

Lemma parse_runs_action_in_final_world_witness :
  (parse 0 ["7"] {| Entries := [1; 0] |} Demo.st_captured).1
  = Returned (None, Some "flag provided but not defined").
Proof.
  pose (ens := [ {| fn := Demo.ctorB; args := [Demo.fs_arg] |};
                 {| fn := Demo.ctorA; args := [Demo.fs_arg] |} ]).
  pose (r := run_entries ens (world Demo.st_captured)).
  rewrite (parse_runs_action_in_final_world 0 ["7"] [1; 0] ens
             (result_or [] r) r.2 Demo.st_captured).
  - vm_compute. reflexivity.
  - repeat constructor.
  - apply (returned_eta []). vm_compute. reflexivity.
  - vm_compute. reflexivity.
Defined.

Lemma constructor_panic_aborts_barrier_witness :
  (parse 0 ["0"] {| Entries := [0; 0; 1] |} Demo.st_captured).1
    = Panicked "flag redefined" /\
  action_runs (new_events (parse 0 ["0"] {| Entries := [0; 0; 1] |})
                          Demo.st_captured) = 0 /\
  constructor_runs 1 (new_events (parse 0 ["0"] {| Entries := [0; 0; 1] |})
                                 Demo.st_captured) = 0.
Proof.
  pose (r := parse_loop [0] (mkParsed ∅) Demo.st_captured).
  destruct (constructor_panic_aborts_barrier 0 ["0"] [0] 0 [1] Demo.st_captured
              (result_or (mkParsed ∅) r) r.2
              {| fn := Demo.ctorA; args := [Demo.fs_arg] |}
              "flag redefined"
              (Call Demo.ctorA [Demo.fs_arg] (world r.2)).2)
    as (Hparse & Hact & Hruns).
  - apply (returned_eta (mkParsed ∅)). vm_compute. reflexivity.
  - reflexivity.
  - apply injective_projections; [vm_compute; reflexivity|reflexivity].
  - split; [exact (f_equal fst Hparse)|]. split; [exact Hact|].
    apply Hruns; [|discriminate].
    intros Hin. apply list_elem_of_singleton in Hin. discriminate Hin.
Defined.

Lemma parsed_domain_is_entries_witness :
  exists res st',
    parse 0 ["0"] {| Entries := [1; 0] |} Demo.st_captured
      = (Returned (Some res, None), st') /\
    is_Some (entries res !! 0) /\ is_Some (entries res !! 1) /\
    entries res !! 2 = None.
Proof.
  assert (H : match (parse 0 ["0"] {| Entries := [1; 0] |} Demo.st_captured).1 with
              | Returned (Some _, None) => true
              | _ => false
              end = true) by (vm_compute; reflexivity).
  destruct (parse 0 ["0"] {| Entries := [1; 0] |} Demo.st_captured)
    as [[[[res|] [err|]]|msg] st'] eqn:E; try discriminate H.
  pose proof (parsed_domain_is_entries 0 ["0"] {| Entries := [1; 0] |}
                Demo.st_captured res st' E) as Hdom.
  exists res, st'. split; [reflexivity|].
  split; [apply Hdom; right; left|].
  split; [apply Hdom; left|].
  apply eq_None_not_Some. intros Hsome. apply Hdom in Hsome.
  apply elem_of_cons in Hsome as [Heq|Hsome]; [discriminate Heq|].
  apply list_elem_of_singleton in Hsome. discriminate Hsome.
Defined.

Lemma parse_runs_each_occurrence_witness :
  exists ens outs w2,
    Forall2 (fun e en => heap Demo.st_captured !! e = Some en) [1; 0] ens /\
    run_entries ens Demo.w0 = (Returned outs, w2) /\
    constructor_runs 0
      (new_events (parse 0 ["0"] {| Entries := [1; 0] |}) Demo.st_captured) = 1.
Proof.
  pose (r := parse 0 ["0"] {| Entries := [1; 0] |} Demo.st_captured).
  destruct (parse_runs_each_occurrence 0 ["0"] {| Entries := [1; 0] |}
              Demo.st_captured (result_or (None, None) r) r.2)
    as (ens & outs & w2 & Hall & Hrun & _ & Hcount).
  - apply (returned_eta (None, None)). vm_compute. reflexivity.
  - exists ens, outs, w2. split; [exact Hall|]. split; [exact Hrun|].
    rewrite Hcount. reflexivity.
Defined.

Lemma Provide_allocates_fresh_entries_witness :
  exists es st',
    Provide [Demo.ctorA; Demo.ctorA] Demo.st_registered
      = (Returned (FxOptions (zip_with provide_pair [Demo.ctorA; Demo.ctorA] es)), st') /\
    length es = 2 /\ NoDup es /\
    heap st' !! 0 = Some {| fn := Demo.ctorA; args := [] |} /\
    heap st' !! 1 = Some {| fn := Demo.ctorB; args := [] |}.
Proof.
  destruct (Provide_allocates_fresh_entries [Demo.ctorA; Demo.ctorA]
              Demo.st_registered)
    as (es & st' & HP & Hlen & Hnd & Hnew & Hold & _).
  - repeat constructor.
  - exists es, st'. split; [exact HP|]. split; [exact Hlen|]. split; [exact Hnd|].
    split.
    + rewrite Hold; [reflexivity|]. intros Hin. apply Hnew in Hin. discriminate Hin.
    + rewrite Hold; [reflexivity|]. intros Hin. apply Hnew in Hin. discriminate Hin.
Defined.

Lemma Provide_calls_compose_witness :
  bind (Provide [Demo.ctorA])
       (fun o1 => bind (Provide [Demo.ctorB])
                       (fun o2 => fx_New Demo.h0 0 ["0"] [o1; o2])) Demo.st0
  = register_and_run Demo.h0 0 ["0"] [Demo.ctorA; Demo.ctorB] Demo.st0.
Proof.
  apply (Provide_calls_compose Demo.h0 0 ["0"] [Demo.ctorA] [Demo.ctorB] Demo.st0).
  - repeat constructor.
  - repeat constructor.
Defined.

Lemma last_capture_wins_witness :
  (bind (fn1 0 []) (fun _ => bind (fn1 0 [Demo.fs_arg])
                                  (fun _ => call_constructor 0))
        Demo.st_registered).1
  = Returned [VObj (Demo.flagsT "A") 0].
Proof.
  rewrite (last_capture_wins 0 [] [Demo.fs_arg] Demo.st_registered
             {| fn := Demo.ctorA; args := [] |}).
  - vm_compute. reflexivity.
  - reflexivity.
Defined.

Lemma release_stage_provider_witness :
  exists e t1 t2 opts st',
    Provide [Demo.ctorA; Demo.ctorV] Demo.st0 = (Returned (FxOptions opts), st') /\
    opts !! 1 = Some (FxProvide [VMade t1 (Capture e); VMade t2 (Release e)]) /\
    NumIn t2 = 1 /\ In t2 0 = parsedPtrType /\ NumOut t2 = 1.
Proof.
  destruct (release_stage_provider [Demo.ctorA] Demo.ctorV [] Demo.st0)
    as (ft & e & t1 & t2 & opts & st' & Hty & HP & Hopt & Hn & Hi & _ & Ho & _).
  - repeat constructor.
  - reflexivity.
  - injection Hty as <-. exists e, t1, t2, opts, st'.
    split; [exact HP|]. split; [exact Hopt|]. split; [exact Hn|].
    split; [exact Hi|exact Ho].
Defined.
